(** * ENRManager: the signed, versioned node-record manager

    A shallow embedding of [ddht/enr_manager.py].  The manager keeps the
    local node's current signed record ([_enr]), re-signs it with the next
    sequence number whenever an update changes a key, and writes every new
    version through to the node database.

    Python [bytes] are modelled as [string] (a list of 8-bit characters),
    Python [int] as [Z], a [dict] as a [gmap], and the positional arguments of
    a call as a [list] of pairs.  Exceptions and the mutation of
    [self], of the node database and of the memory channel are threaded
    through a small state-and-error monad. *)

From stdpp Require Import gmap strings list fin_maps relations.
From Stdlib Require Import ZArith NArith Ascii.

Abbreviation bytes := string (only parsing).
Abbreviation NodeID := string (only parsing).
Abbreviation ENR_KV := (string * string)%type (only parsing).

(** ** Records and identity schemes *)

(** Modelled from the spec: an identity scheme ([ddht/identity_schemes.py]
    is not among the sources).  A scheme signs the canonical encoding of
    (sequence number, key/value pairs) with the raw private key, which can
    fail, and derives a node identity from the public-key field. *)
Record IdentityScheme := {
  create_enr_signature : Z → gmap bytes bytes → bytes → option bytes;
  derive_identity : bytes → NodeID
}.

(** Modelled from the spec: the registry resolving a scheme name to its
    implementation. *)
Abbreviation IdentitySchemeRegistry := (gmap string IdentityScheme) (only parsing).

(** Modelled from the spec: the unsigned record of [ddht/enr.py], a
    sequence number and a key/value mapping, with the scheme that its
    [b"id"] field names. *)
Record UnsignedENR := {
  unsigned_sequence_number : Z;
  unsigned_kv_pairs : gmap bytes bytes;
  unsigned_identity_scheme : IdentityScheme
}.

(** Modelled from the spec: the signed record of [ddht/enr.py].  Records are
    immutable, so the identity derived when the record is built is kept
    with it. *)
Record ENR := {
  sequence_number : Z;
  enr_kv_pairs : gmap bytes bytes;
  signature : bytes;
  node_id : NodeID
}.

(** [eth_keys.keys.PrivateKey]: the raw bytes and the compressed public key. *)
Record PublicKey := { to_compressed_bytes : bytes }.
Record PrivateKey := { to_bytes : bytes; public_key : PublicKey }.

(** ** Exceptions, effects and the monad *)

Inductive error :=
| KeyError          (* node database lookup miss *)
| UnknownScheme     (* the scheme named by b"id" is not registered *)
| SigningFailure    (* the scheme could not sign the record *)
| LifecycleError        (* external API used while the service is not running *)
| BrokenResourceError   (* send on a channel whose receive side is closed *)
| ClosedResourceError.  (* receive on a receive side that has been closed *)

(** Side effects that leave the process, in the order they happen. *)
Inductive event :=
| EvSign (unsigned : UnsignedENR)
| EvSetEnr (enr : ENR)
| EvLogInfo (msg : string) (enr : ENR).

(** The objects the manager shares with its environment: the node database
    and the zero-capacity memory channel, whose content is the sequence of
    pairs handed over by senders and not yet received.  A channel of
    capacity zero holds no pair of its own: a pending pair is the offer of
    a sender that is suspended in [send] until a receiver takes it.  The
    world also records whether the receive side of the channel has been
    closed and whether the service that owns the manager is running. *)
Record World := {
  node_db : gmap NodeID ENR;
  channel : list ENR_KV;
  trace : list event;
  receive_closed : bool;
  is_running : bool
}.

Definition M (S A : Type) : Type := S → (error + A) * S.

#[global] Instance M_ret {S} : MRet (M S) := λ A a s, (inr a, s).
#[global] Instance M_bind {S} : MBind (M S) := λ A B f m s,
  match m s with
  | (inr a, s') => f a s'
  | (inl e, s') => (inl e, s')
  end.

(** [try: body / except KeyError: handler / else: orelse]. *)
Definition try_except_KeyError_else {S A B}
    (body : M S A) (handler : M S B) (orelse : A → M S B) : M S B := λ s,
  match body s with
  | (inr a, s') => orelse a s'
  | (inl KeyError, s') => handler s'
  | (inl e, s') => (inl e, s')
  end.

Definition emit (ev : event) : M World () := λ w,
  (inr (), {| node_db := node_db w; channel := channel w;
              trace := trace w ++ [ev];
              receive_closed := receive_closed w;
              is_running := is_running w |}).

Definition logger_info (msg : string) (enr : ENR) : M World () :=
  emit (EvLogInfo msg enr).

(** Modelled from the spec: [NodeDBAPI.get_enr], failing with [KeyError]
    when the identity has no record. *)
Definition get_enr (n : NodeID) : M World ENR := λ w,
  match node_db w !! n with
  | Some enr => (inr enr, w)
  | None => (inl KeyError, w)
  end.

(** Modelled from the spec: [NodeDBAPI.set_enr], an unconditional overwrite
    of the entry of the record's identity. *)
Definition set_enr (enr : ENR) : M World () := λ w,
  (inr (), {| node_db := <[node_id enr := enr]> (node_db w);
              channel := channel w;
              trace := trace w ++ [EvSetEnr enr];
              receive_closed := receive_closed w;
              is_running := is_running w |}).

(** [trio.open_memory_channel(0)]: a fresh, empty channel, both sides
    open. *)
Definition open_memory_channel : M World () := λ w,
  (inr (), {| node_db := node_db w; channel := []; trace := trace w;
              receive_closed := false;
              is_running := is_running w |}).


(** One step of [async for ... in receive_channel]: the oldest pending pair,
    or [None] once the send side is closed and nothing is pending.  A
    receive side that has been closed raises. *)
Definition receive : M World (option ENR_KV) := λ w,
  if receive_closed w then (inl ClosedResourceError, w)
  else
    match channel w with
    | [] => (inr None, w)
    | kv_pair :: rest =>
        (inr (Some kv_pair),
         {| node_db := node_db w; channel := rest; trace := trace w;
            receive_closed := receive_closed w;
            is_running := is_running w |})
    end.

(** [receive_channel.aclose()]: the receive side is closed, the pending
    offers are discarded and their senders, like every later sender, get
    [BrokenResourceError]. *)
Definition aclose : M World () := λ w,
  (inr (), {| node_db := node_db w; channel := []; trace := trace w;
              receive_closed := true;
              is_running := is_running w |}).

(** Modelled from the spec: [UnsignedENR(sequence_number, kv_pairs,
    identity_scheme_registry)] resolves the scheme named under [b"id"]. *)
Definition UnsignedENR_new (sequence_number : Z)
    (kv_pairs : gmap bytes bytes)
    (identity_scheme_registry : IdentitySchemeRegistry)
    : error + UnsignedENR :=
  match kv_pairs !! "id" with
  | Some name =>
      match identity_scheme_registry !! name with
      | Some scheme =>
          inr {| unsigned_sequence_number := sequence_number;
                 unsigned_kv_pairs := kv_pairs;
                 unsigned_identity_scheme := scheme |}
      | None => inl UnknownScheme
      end
  | None => inl UnknownScheme
  end.

(** Modelled from the spec: the record that signing yields.  The scheme
    signs the unsigned record; the identity is derived from the public-key
    field [b"secp256k1"], whose absence is malformed key material. *)
Definition sign_enr (unsigned : UnsignedENR) (private_key : bytes)
    : error + ENR :=
  match unsigned_kv_pairs unsigned !! "secp256k1",
        create_enr_signature (unsigned_identity_scheme unsigned)
          (unsigned_sequence_number unsigned) (unsigned_kv_pairs unsigned)
          private_key with
  | Some pk, Some sig =>
      inr {| sequence_number := unsigned_sequence_number unsigned;
             enr_kv_pairs := unsigned_kv_pairs unsigned;
             signature := sig;
             node_id := derive_identity (unsigned_identity_scheme unsigned) pk |}
  | _, _ => inl SigningFailure
  end.

(** An exception raised, or a value returned, by a pure computation. *)
Definition lift_result {S A} (r : error + A) : M S A := λ s, (r, s).

(** Modelled from the spec: [UnsignedENR.to_signed_enr(private_key)], one
    signing attempt. *)
Definition to_signed_enr (unsigned : UnsignedENR) (private_key : bytes)
    : M World ENR :=
  emit (EvSign unsigned);;
  lift_result (sign_enr unsigned private_key).

(** ** Dictionaries *)

(** [toolz.merge(a, b)]: the entries of both, those of [b] winning. *)
Definition merge (a b : gmap bytes bytes) : gmap bytes bytes := b ∪ a.

(** [dict(kv_pairs)] on a sequence of pairs: a later pair overrides an
    earlier one with the same key. *)
Definition dict (kv_pairs : list ENR_KV) : gmap bytes bytes :=
  foldl (λ d kv, <[kv.1 := kv.2]> d) ∅ kv_pairs.

(** [dict(enr).items()].  A record has each key once, so the order of the
    items does not affect [dict] or [any]. *)
Definition items (enr : ENR) : list ENR_KV := map_to_list (enr_kv_pairs enr).

(** ** The manager *)

Record ENRManager := {
  _identity_scheme_registry : IdentitySchemeRegistry;
  _private_key : PrivateKey;
  _node_id : NodeID;
  _enr : ENR
}.

Abbreviation Method := (M (ENRManager * World)) (only parsing).

Definition get_self : Method ENRManager := λ σ, (inr σ.1, σ).

(** [self._enr = enr] *)
Definition set_self_enr (enr : ENR) : Method () := λ σ,
  (inr (), ({| _identity_scheme_registry := _identity_scheme_registry σ.1;
               _private_key := _private_key σ.1;
               _node_id := _node_id σ.1;
               _enr := enr |}, σ.2)).

Definition in_world {A} (m : M World A) : Method A := λ σ,
  let '(r, w') := m σ.2 in (r, (σ.1, w')).

(** [key not in enr or enr[key] != value] *)
Definition differs (enr : ENR) (kv : ENR_KV) : bool :=
  match enr_kv_pairs enr !! kv.1 with
  | None => true
  | Some current => negb (bool_decide (current = kv.2))
  end.

(** [any(key not in enr or enr[key] != value for key, value in kv_pairs)] *)
Definition any_differs (enr : ENR) (kv_pairs : list ENR_KV) : bool :=
  existsb (differs enr) kv_pairs.

(** [ENRManager.update], called with the pairs as positional arguments. *)
Definition update (kv_pairs : list ENR_KV) : Method ENR :=
  self ← get_self;
  if any_differs (_enr self) kv_pairs then
    unsigned ← lift_result
                 (UnsignedENR_new
                    (sequence_number (_enr self) + 1)
                    (merge (enr_kv_pairs (_enr self)) (dict kv_pairs))
                    (_identity_scheme_registry self));
    enr ← in_world (to_signed_enr unsigned (to_bytes (_private_key self)));
    set_self_enr enr;;
    self ← get_self;
    in_world (set_enr (_enr self));;
    in_world (logger_info "Local ENR Updated: %r" (_enr self));;
    mret (_enr self)
  else
    mret (_enr self).

(** Runs a method on the object under construction and hands the object
    back. *)
Definition constructing {A} (self : ENRManager) (body : Method A)
    : M World ENRManager := λ w,
  match body (self, w) with
  | (inr _, (self', w')) => (inr self', w')
  | (inl e, (_, w')) => (inl e, w')
  end.

(** The [identity_kv_pairs] of [__init__]: nothing when the caller names a
    scheme, otherwise the default scheme and the compressed public key. *)
Definition identity_kv_pairs (private_key : PrivateKey)
    (kv_pairs : gmap bytes bytes) : gmap bytes bytes :=
  if decide (is_Some (kv_pairs !! "id")) then ∅
  else {[ "id" := "v4";
          "secp256k1" := to_compressed_bytes (public_key private_key) ]}.

(** [ENRManager.__init__(node_db, private_key, kv_pairs,
    identity_scheme_registry)]; the node database is the one of the world. *)
Definition __init__ (private_key : PrivateKey)
    (kv_pairs : option (gmap bytes bytes))
    (identity_scheme_registry : IdentitySchemeRegistry) : M World ENRManager :=
  open_memory_channel;;
  let kv_pairs := default ∅ kv_pairs in
  unsigned ← lift_result
               (UnsignedENR_new 1
                  (merge (identity_kv_pairs private_key kv_pairs) kv_pairs)
                  identity_scheme_registry);
  minimal_enr ← to_signed_enr unsigned (to_bytes private_key);
  let self enr :=
    {| _identity_scheme_registry := identity_scheme_registry;
       _private_key := private_key;
       _node_id := node_id minimal_enr;
       _enr := enr |} in
  try_except_KeyError_else (get_enr (node_id minimal_enr))
    (logger_info "Local ENR created: %r" minimal_enr;;
     set_enr minimal_enr;;
     mret (self minimal_enr))
    (λ base_enr,
       constructing (self base_enr) (update (items minimal_enr))).






(** [async with self._receive_channel: body]: the receive side is closed
    on every exit from the body, raising or not. *)
Definition async_with_receive_channel {A} (body : Method A) : Method A :=
  λ σ,
  match body σ with
  | (r, σ') =>
      match in_world aclose σ' with
      | (_, σ'') => (r, σ'')
      end
  end.

(** The loop of [ENRManager.run()].  Each iteration receives one pair and
    applies it; the loop ends when the channel is exhausted.  The number of
    iterations is bounded by the pending pairs, which [update] never adds
    to. *)
Fixpoint run_loop (iterations : nat) : Method () :=
  match iterations with
  | O => mret ()
  | S n =>
      received ← in_world receive;
      match received with
      | None => mret ()
      | Some (key, value) => update [(key, value)];; run_loop n
      end
  end.

(** [ENRManager.run()]: the consumer loop inside [async with]. *)
Definition run : Method () :=
  async_with_receive_channel
    (λ σ, run_loop (S (length (channel σ.2))) σ).

(** ** Example instances

    A scheme whose signature is a tag around the key, which refuses the
    empty key, and whose identity is a tag around the public key; a second
    scheme name registered with the same implementation. *)

Definition example_scheme : IdentityScheme := {|
  create_enr_signature := λ _ _ private_key,
    if decide (private_key = "") then None
    else Some ("sig:" +:+ private_key);
  derive_identity := λ pk, "node:" +:+ pk
|}.

Definition example_registry : gmap string IdentityScheme :=
  {[ "v4" := example_scheme; "v4-compat" := example_scheme ]}.

Definition example_key : PrivateKey :=
  {| to_bytes := "k1"; public_key := {| to_compressed_bytes := "P1" |} |}.

Definition broken_key : PrivateKey :=
  {| to_bytes := ""; public_key := {| to_compressed_bytes := "P1" |} |}.

Definition empty_world : World :=
  {| node_db := ∅; channel := []; trace := [];
     receive_closed := false; is_running := true |}.

(** ** States reached by [update] *)

Definition with_enr (self : ENRManager) (enr : ENR) : ENRManager :=
  {| _identity_scheme_registry := _identity_scheme_registry self;
     _private_key := _private_key self;
     _node_id := _node_id self;
     _enr := enr |}.

Definition traced (w : World) (evs : list event) : World :=
  {| node_db := node_db w; channel := channel w; trace := trace w ++ evs;
     receive_closed := receive_closed w; is_running := is_running w |}.

Definition stored (w : World) (enr : ENR) (evs : list event) : World :=
  {| node_db := <[node_id enr := enr]> (node_db w);
     channel := channel w;
     trace := trace w ++ evs;
     receive_closed := receive_closed w;
     is_running := is_running w |}.

(** The unsigned record that an effective [update] builds. *)
Definition next_unsigned (self : ENRManager) (kv_pairs : list ENR_KV)
    : error + UnsignedENR :=
  UnsignedENR_new (sequence_number (_enr self) + 1)
    (merge (enr_kv_pairs (_enr self)) (dict kv_pairs))
    (_identity_scheme_registry self).

(** The record a fresh node with [example_key] starts from, the manager
    holding it and the world in which it is stored. *)
Definition example_enr : ENR :=
  {| sequence_number := 1;
     enr_kv_pairs := {[ "id" := "v4"; "secp256k1" := "P1" ]};
     signature := "sig:k1";
     node_id := "node:P1" |}.

Definition example_manager : ENRManager :=
  {| _identity_scheme_registry := example_registry;
     _private_key := example_key;
     _node_id := "node:P1";
     _enr := example_enr |}.

Definition example_world : World :=
  {| node_db := {[ "node:P1" := example_enr ]}; channel := []; trace := [];
     receive_closed := false; is_running := true |}.

(** The same manager with key material the scheme cannot sign with. *)
Definition broken_manager : ENRManager :=
  {| _identity_scheme_registry := example_registry;
     _private_key := broken_key;
     _node_id := "node:P1";
     _enr := example_enr |}.

(** ** Sequences of calls *)

(** The state in which one [update] call leaves the manager and the world,
    whether it returned or raised. *)
Definition after_update (σ : ENRManager * World) (kv_pairs : list ENR_KV)
    : ENRManager * World :=
  (update kv_pairs σ).2.

Definition current_sequence_number (σ : ENRManager * World) : Z :=
  sequence_number (_enr σ.1).

(** ** States reached by [__init__] *)

Definition opened (w : World) : World :=
  {| node_db := node_db w; channel := []; trace := trace w;
     receive_closed := false; is_running := is_running w |}.

(** The unsigned minimal record that [__init__] builds. *)
Definition minimal_unsigned (private_key : PrivateKey)
    (kv_pairs : option (gmap bytes bytes))
    (identity_scheme_registry : gmap string IdentityScheme)
    : error + UnsignedENR :=
  UnsignedENR_new 1
    (merge (identity_kv_pairs private_key (default ∅ kv_pairs))
       (default ∅ kv_pairs))
    identity_scheme_registry.

(** The manager whose identity is that of [minimal_enr] and whose current
    record is [enr]. *)
Definition manager_of (private_key : PrivateKey)
    (identity_scheme_registry : gmap string IdentityScheme)
    (minimal_enr enr : ENR) : ENRManager :=
  {| _identity_scheme_registry := identity_scheme_registry;
     _private_key := private_key;
     _node_id := node_id minimal_enr;
     _enr := enr |}.

(** Reconciliation by replaying [replayed]: whenever the minimal record is
    built and signed and the node database holds [base_enr] under its
    identity, construction makes [base_enr] current and then calls
    [update] with the pairs [replayed] selects. *)
Definition reconciles_by_replaying
    (replayed : gmap bytes bytes → ENR → list ENR_KV)
    (private_key : PrivateKey) (kv_pairs : option (gmap bytes bytes))
    (identity_scheme_registry : gmap string IdentityScheme) (w : World)
    : Prop :=
  ∀ unsigned minimal_enr base_enr,
    minimal_unsigned private_key kv_pairs identity_scheme_registry
      = inr unsigned →
    sign_enr unsigned (to_bytes private_key) = inr minimal_enr →
    node_db w !! node_id minimal_enr = Some base_enr →
    __init__ private_key kv_pairs identity_scheme_registry w =
    constructing
      (manager_of private_key identity_scheme_registry minimal_enr base_enr)
      (update (replayed (default ∅ kv_pairs) minimal_enr))
      (traced (opened w) [EvSign unsigned]).

(** The caller's original pairs, and the pairs of the minimal record. *)
Definition callers_pairs (kv_pairs : gmap bytes bytes) (minimal_enr : ENR)
    : list ENR_KV :=
  map_to_list kv_pairs.

Definition minimal_pairs (kv_pairs : gmap bytes bytes) (minimal_enr : ENR)
    : list ENR_KV :=
  items minimal_enr.

(** Write-through coherence: the node database holds the current record
    under the manager's identity. *)
Definition coherent (σ : ENRManager * World) : Prop :=
  node_db σ.2 !! _node_id σ.1 = Some (_enr σ.1).

(** A world whose node database holds, for the identity of [example_key],
    a record at sequence number 5 made under the second scheme name. *)
Definition compat_enr : ENR :=
  {| sequence_number := 5;
     enr_kv_pairs := {[ "id" := "v4-compat"; "secp256k1" := "P1" ]};
     signature := "sig:k1";
     node_id := "node:P1" |}.

Definition compat_world : World :=
  {| node_db := {[ "node:P1" := compat_enr ]}; channel := []; trace := [];
     receive_closed := false; is_running := true |}.

(** ** Queued updates *)

(** What the specification asks of the consumer: the pairs applied one
    after the other, each through a call of [update] with that single pair,
    ending at the first call that raises. *)
Fixpoint update_each (kv_pairs : list ENR_KV) : Method () :=
  match kv_pairs with
  | [] => mret ()
  | kv_pair :: rest => update [kv_pair];; update_each rest
  end.

(** The world with [kv_pairs] on offer after the pairs already pending. *)
Definition enqueued (w : World) (kv_pairs : list ENR_KV) : World :=
  {| node_db := node_db w; channel := channel w ++ kv_pairs;
     trace := trace w;
     receive_closed := receive_closed w;
     is_running := is_running w |}.

(** The world after [aclose]. *)
Definition closed (w : World) : World :=
  {| node_db := node_db w; channel := []; trace := trace w;
     receive_closed := true; is_running := is_running w |}.






(** ** The client glue of [ddht/tools/web3.py]

    Python [str] values are modelled as [string] like [bytes]; the text of
    an error message is not modelled. *)

(** [value[n:]] *)
Fixpoint string_from (n : nat) (value : string) : string :=
  match n, value with
  | O, _ => value
  | S n, String _ rest => string_from n rest
  | S _, EmptyString => EmptyString
  end.

(** [eth_utils.is_0x_prefixed]: [value.startswith(("0x", "0X"))]. *)
Definition is_0x_prefixed (value : string) : bool :=
  String.prefix "0x" value || String.prefix "0X" value.

(** [eth_utils.remove_0x_prefix] *)
Definition remove_0x_prefix (value : string) : string :=
  if is_0x_prefixed value then string_from 2 value else value.

(** [eth_utils.add_0x_prefix] *)
Definition add_0x_prefix (value : string) : string :=
  if is_0x_prefixed value then value else "0x" +:+ value.

Definition hex_digit (n : N) : ascii :=
  match String.get (N.to_nat n) "0123456789abcdef" with
  | Some c => c
  | None => "0"%char
  end.

(** [binascii.hexlify]: two lowercase digits per byte. *)
Fixpoint hexlify (value : bytes) : string :=
  match value with
  | EmptyString => EmptyString
  | String byte rest =>
      String (hex_digit (N_of_ascii byte / 16))
        (String (hex_digit (N_of_ascii byte mod 16)) (hexlify rest))
  end.

(** [eth_utils.encode_hex] on [bytes]. *)
Definition encode_hex (value : bytes) : string :=
  add_0x_prefix (hexlify value).

(** The value of a hexadecimal digit of either case. *)
Definition hex_value (c : ascii) : option N :=
  let code := N_of_ascii c in
  if ((48 <=? code) && (code <=? 57))%N then Some (code - 48)%N
  else if ((97 <=? code) && (code <=? 102))%N then Some (code - 87)%N
  else if ((65 <=? code) && (code <=? 70))%N then Some (code - 55)%N
  else None.

(** [binascii.unhexlify]; [None] stands for the error it raises on an odd
    number of digits or on a character that is no digit. *)
Fixpoint unhexlify (value : string) : option bytes :=
  match value with
  | EmptyString => Some EmptyString
  | String _ EmptyString => None
  | String high (String low rest) =>
      match hex_value high, hex_value low, unhexlify rest with
      | Some h, Some l, Some decoded =>
          Some (String (ascii_of_N (16 * h + l)) decoded)
      | _, _, _ => None
      end
  end.

(** [eth_utils.decode_hex] *)
Definition decode_hex (value : string) : option bytes :=
  unhexlify (remove_0x_prefix value).

(** The argument of [ping_munger]: an ENR object, of which the munger uses
    the [repr] only, a byte string, a text string, or any other object. *)
Inductive Identifier :=
| IdENR (repr : string)
| IdBytes (value : bytes)
| IdStr (value : string)
| IdOther.

Inductive ValueError := Unrecognized_node_identifier.

(** [ping_munger(module, identifier)] *)
Definition ping_munger (identifier : Identifier) : ValueError + list string :=
  match identifier with
  | IdENR repr => inr [repr]
  | IdBytes identifier =>
      if decide (String.length identifier = 32) then
        inr [encode_hex identifier]
      else inl Unrecognized_node_identifier
  | IdStr identifier =>
      if String.prefix "enode://" identifier || String.prefix "enr:" identifier
      then inr [identifier]
      else if decide (String.length (remove_0x_prefix identifier) = 64) then
        inr [add_0x_prefix identifier]
      else inl Unrecognized_node_identifier
  | IdOther => inl Unrecognized_node_identifier
  end.

(** The dictionary of [BucketInfo.from_rpc_response] and the tuple it
    builds. *)
Record BucketInfoDict := {
  response_idx : Z;
  response_nodes : list string;
  response_replacement_cache : list string;
  response_is_full : bool
}.

Record BucketInfo := {
  idx : Z;
  nodes : list NodeID;
  replacement_cache : list NodeID;
  is_full : bool
}.

(** [tuple(NodeID(decode_hex(node_id_hex)) for node_id_hex in hexes)];
    [None] when a [decode_hex] raises. *)
Fixpoint decode_node_ids (hexes : list string) : option (list NodeID) :=
  match hexes with
  | [] => Some []
  | node_id_hex :: rest =>
      match decode_hex node_id_hex with
      | Some node_id =>
          match decode_node_ids rest with
          | Some decoded => Some (node_id :: decoded)
          | None => None
          end
      | None => None
      end
  end.

(** [BucketInfo.from_rpc_response(response)] *)
Definition BucketInfo_from_rpc_response (response : BucketInfoDict)
    : option BucketInfo :=
  match decode_node_ids (response_nodes response) with
  | Some decoded_nodes =>
      match decode_node_ids (response_replacement_cache response) with
      | Some decoded_cache =>
          Some {| idx := response_idx response;
                  nodes := decoded_nodes;
                  replacement_cache := decoded_cache;
                  is_full := response_is_full response |}
      | None => None
      end
  | None => None
  end.

(** Whether a string reads as an ENode URI or as the text form of an ENR. *)
Definition is_uri (identifier : string) : bool :=
  String.prefix "enode://" identifier || String.prefix "enr:" identifier.

(** * Properties *)

(** ** Dictionaries *)

Lemma dict_snoc l kv : dict (l ++ [kv]) = <[kv.1 := kv.2]> (dict l).
Proof. unfold dict. by rewrite foldl_app. Qed.

Lemma dict_reverse l : dict l = list_to_map (reverse l).
Proof.
  induction l as [|kv l IH] using rev_ind; [done|].
  rewrite dict_snoc, reverse_app, IH. by destruct kv.
Qed.

Lemma dict_single key value : dict [(key, value)] = {[ key := value ]}.
Proof. done. Qed.

Lemma dict_map_to_list (m : gmap string string) : dict (map_to_list m) = m.
Proof.
  rewrite dict_reverse.
  rewrite <-(list_to_map_to_list m) at 2.
  apply list_to_map_proper.
  - rewrite fmap_reverse, reverse_Permutation. apply NoDup_fst_map_to_list.
  - apply reverse_Permutation.
Qed.

Lemma merge_single (a : gmap string string) key value :
  merge a (dict [(key, value)]) = <[key := value]> a.
Proof.
  rewrite dict_single. unfold merge.
  by rewrite <-insert_empty, <-insert_union_l, (left_id_L ∅ (∪)).
Qed.

Lemma merge_lookup (a b : gmap string string) k :
  merge a b !! k = match b !! k with Some v => Some v | None => a !! k end.
Proof.
  unfold merge. destruct (b !! k) as [v|] eqn:Hb.
  - by apply lookup_union_Some_l.
  - by rewrite lookup_union_r.
Qed.

Lemma differs_false enr kv :
  differs enr kv = false ↔ enr_kv_pairs enr !! kv.1 = Some kv.2.
Proof.
  unfold differs. destruct (enr_kv_pairs enr !! kv.1) as [c|]; [|done].
  rewrite negb_false_iff, bool_decide_eq_true. naive_solver.
Qed.

Lemma any_differs_false enr kv_pairs :
  any_differs enr kv_pairs = false ↔
  ∀ key value, (key, value) ∈ kv_pairs → enr_kv_pairs enr !! key = Some value.
Proof.
  unfold any_differs. induction kv_pairs as [|[k v] l IH]; simpl.
  - split; [intros _ ?? H; inversion H|done].
  - rewrite orb_false_iff, IH, differs_false; simpl. split.
    + intros [Hk Hl] key value [Heq|Hin]%elem_of_cons; [by simplify_eq|eauto].
    + intros H. split; [apply H; left|intros ???; apply H; by right].
Qed.

Lemma any_differs_single enr key value :
  any_differs enr [(key, value)] = true ↔
  enr_kv_pairs enr !! key ≠ Some value.
Proof.
  rewrite <-not_false_iff_true, any_differs_false. split.
  - intros H Hk. apply H. by intros ?? [= -> ->]%list_elem_of_singleton.
  - intros H Hall. apply H, Hall. by apply list_elem_of_singleton.
Qed.

(** ** The outcome of [update], case by case *)

Lemma update_unfold kv_pairs self w :
  update kv_pairs (self, w) =
  if any_differs (_enr self) kv_pairs then
    match next_unsigned self kv_pairs with
    | inl e => (inl e, (self, w))
    | inr unsigned =>
        match sign_enr unsigned (to_bytes (_private_key self)) with
        | inl e => (inl e, (self, traced w [EvSign unsigned]))
        | inr enr =>
            (inr enr,
             (with_enr self enr,
              stored w enr [EvSign unsigned; EvSetEnr enr;
                            EvLogInfo "Local ENR Updated: %r" enr]))
        end
    end
  else (inr (_enr self), (self, w)).
Proof.
  unfold update, next_unsigned, mbind, M_bind, get_self, lift_result; simpl.
  destruct (any_differs _ _); [|done].
  destruct (UnsignedENR_new _ _ _) as [e|unsigned]; [done|].
  unfold in_world, to_signed_enr, mbind, M_bind, emit, lift_result; simpl.
  destruct (sign_enr _ _) as [e|enr]; [done|].
  unfold stored, with_enr; simpl. by rewrite <-!app_assoc.
Qed.

Lemma UnsignedENR_new_inr seq kv reg unsigned :
  UnsignedENR_new seq kv reg = inr unsigned →
  unsigned_sequence_number unsigned = seq ∧ unsigned_kv_pairs unsigned = kv ∧
  ∃ name, kv !! "id" = Some name ∧
          reg !! name = Some (unsigned_identity_scheme unsigned).
Proof.
  unfold UnsignedENR_new. destruct (kv !! "id") as [name|]; [|done].
  destruct (reg !! name) as [scheme|] eqn:Hreg; [|done].
  intros [= <-]; simpl. eauto.
Qed.

Lemma sign_enr_inr unsigned private_key enr :
  sign_enr unsigned private_key = inr enr →
  sequence_number enr = unsigned_sequence_number unsigned ∧
  enr_kv_pairs enr = unsigned_kv_pairs unsigned ∧
  ∃ pk, unsigned_kv_pairs unsigned !! "secp256k1" = Some pk ∧
        node_id enr = derive_identity (unsigned_identity_scheme unsigned) pk.
Proof.
  unfold sign_enr.
  destruct (unsigned_kv_pairs unsigned !! "secp256k1") as [pk|]; [|done].
  destruct (create_enr_signature _ _ _ _); [|done].
  intros [= <-]; simpl. eauto.
Qed.

(** What a successful effective [update] returns: the record after the
    current one, holding the merged pairs. *)
Lemma update_inr_effective kv_pairs self w enr σ' :
  any_differs (_enr self) kv_pairs = true →
  update kv_pairs (self, w) = (inr enr, σ') →
  σ'.1 = with_enr self enr ∧
  sequence_number enr = (sequence_number (_enr self) + 1)%Z ∧
  enr_kv_pairs enr = merge (enr_kv_pairs (_enr self)) (dict kv_pairs) ∧
  node_db σ'.2 = <[node_id enr := enr]> (node_db w).
Proof.
  rewrite update_unfold. intros ->.
  destruct (next_unsigned self kv_pairs) as [e|unsigned] eqn:Hu; [done|].
  destruct (sign_enr unsigned _) as [e|enr'] eqn:Hs; [done|].
  intros [= -> <-]; simpl.
  apply UnsignedENR_new_inr in Hu as (Hseq & Hkv & _).
  apply sign_enr_inr in Hs as (Hseq' & Hkv' & _).
  split_and!; congruence.
Qed.

(** ** Idempotence *)

(** C2 — Idempotence of [update]: when every supplied pair is already in
    the current record with an equal value, the call returns the current
    record itself (same sequence number, same signature) and leaves the
    manager and the world as they were: the trace gains no signing event
    and no store write, and the node database is untouched. *)
Theorem update_idempotent kv_pairs self w :
  (∀ key value, (key, value) ∈ kv_pairs →
                enr_kv_pairs (_enr self) !! key = Some value) →
  update kv_pairs (self, w) = (inr (_enr self), (self, w)).
Proof.
  intros Hsame. rewrite update_unfold.
  by apply any_differs_false in Hsame as ->.
Qed.

Lemma update_idempotent_witness :
  update [("secp256k1", "P1"); ("id", "v4")] (example_manager, example_world)
  = (inr example_enr, (example_manager, example_world)).
Proof.
  apply (update_idempotent [("secp256k1", "P1"); ("id", "v4")]
           example_manager example_world).
  intros key value Hin.
  apply any_differs_false with (kv_pairs := [("secp256k1", "P1"); ("id", "v4")]);
    [reflexivity|exact Hin].
Defined.

(** ** Monotonicity *)

Lemma update_sequence_number kv_pairs self w :
  current_sequence_number (after_update (self, w) kv_pairs) =
    sequence_number (_enr self) ∨
  current_sequence_number (after_update (self, w) kv_pairs) =
    (sequence_number (_enr self) + 1)%Z.
Proof.
  unfold after_update, current_sequence_number. rewrite update_unfold.
  destruct (any_differs _ _); [|by left].
  destruct (next_unsigned self kv_pairs) as [e|unsigned] eqn:Hu; [by left|].
  destruct (sign_enr unsigned _) as [e|enr] eqn:Hs; [by left|].
  right; simpl.
  apply UnsignedENR_new_inr in Hu as (Hseq & _).
  apply sign_enr_inr in Hs as (Hseq' & _). congruence.
Qed.

(** An effective [update] returns whenever the scheme named by the merged
    pairs is registered, the merged pairs hold a public key and the scheme
    signs with the manager's key. *)
Lemma update_effective_returns kv_pairs self w name scheme pk :
  any_differs (_enr self) kv_pairs = true →
  merge (enr_kv_pairs (_enr self)) (dict kv_pairs) !! "id" = Some name →
  _identity_scheme_registry self !! name = Some scheme →
  merge (enr_kv_pairs (_enr self)) (dict kv_pairs) !! "secp256k1" = Some pk →
  (∀ seq kv,
     is_Some (create_enr_signature scheme seq kv
                (to_bytes (_private_key self)))) →
  ∃ enr σ',
    update kv_pairs (self, w) = (inr enr, σ') ∧
    _enr σ'.1 = enr ∧
    sequence_number enr = (sequence_number (_enr self) + 1)%Z.
Proof.
  intros Hany Hid Hreg Hpk Hsign.
  rewrite update_unfold, Hany. unfold next_unsigned, UnsignedENR_new.
  rewrite Hid, Hreg. unfold sign_enr; simpl. rewrite Hpk.
  destruct (Hsign (sequence_number (_enr self) + 1)%Z
              (merge (enr_kv_pairs (_enr self)) (dict kv_pairs)))
    as [sig ->].
  by eexists _, _.
Qed.

(** C3 — Monotonicity of the sequence number.  A returning call yields the
    manager's new current record, whose sequence number is the previous one
    plus 1 when the call is effective and the previous one otherwise; a
    raising call leaves the manager as it was.  Hence over any sequence of
    calls the sequence number never decreases and rises by at most one per
    call.  An effective call does return such a record, at the previous
    sequence number plus 1, whenever signing succeeds: the scheme named by
    the merged pairs is registered, the merged pairs hold a public key and
    the scheme signs with the manager's key. *)
Theorem sequence_number_monotone :
  (∀ kv_pairs self w,
     match update kv_pairs (self, w) with
     | (inr enr, σ') =>
         _enr σ'.1 = enr ∧
         sequence_number enr =
           (sequence_number (_enr self)
            + (if any_differs (_enr self) kv_pairs then 1 else 0))%Z
     | (inl _, σ') => σ'.1 = self
     end) ∧
  (∀ calls σ,
     (current_sequence_number σ
        ≤ current_sequence_number (foldl after_update σ calls))%Z ∧
     (current_sequence_number (foldl after_update σ calls)
        ≤ current_sequence_number σ + Z.of_nat (length calls))%Z) ∧
  (∀ kv_pairs self w name scheme pk,
     any_differs (_enr self) kv_pairs = true →
     merge (enr_kv_pairs (_enr self)) (dict kv_pairs) !! "id" = Some name →
     _identity_scheme_registry self !! name = Some scheme →
     merge (enr_kv_pairs (_enr self)) (dict kv_pairs) !! "secp256k1"
       = Some pk →
     (∀ seq kv,
        is_Some (create_enr_signature scheme seq kv
                   (to_bytes (_private_key self)))) →
     ∃ enr σ',
       update kv_pairs (self, w) = (inr enr, σ') ∧
       _enr σ'.1 = enr ∧
       sequence_number enr = (sequence_number (_enr self) + 1)%Z).
Proof.
  split_and!.
  - intros kv_pairs self w.
    destruct (update kv_pairs (self, w)) as [[e|enr] σ'] eqn:Hupd.
    + rewrite update_unfold in Hupd.
      destruct (any_differs _ _); [|done].
      destruct (next_unsigned self kv_pairs) as [e'|unsigned];
        [by simplify_eq|].
      destruct (sign_enr unsigned _); by simplify_eq.
    + destruct (any_differs (_enr self) kv_pairs) eqn:Hany.
      * apply update_inr_effective in Hupd as (-> & Hseq & _); done.
      * rewrite update_unfold, Hany in Hupd. simplify_eq; simpl.
        split; [done|lia].
  - intros calls. induction calls as [|kv_pairs calls IH]; intros σ; simpl.
    + lia.
    + destruct (IH (after_update σ kv_pairs)) as [Hlo Hhi].
      destruct σ as [self w].
      destruct (update_sequence_number kv_pairs self w) as [Heq|Heq];
        unfold current_sequence_number in *; simpl in *; lia.
  - apply update_effective_returns.
Qed.

Lemma sequence_number_monotone_witness :
  ∃ enr σ',
    update [("foo", "bar")] (example_manager, example_world) = (inr enr, σ') ∧
    _enr σ'.1 = enr ∧
    sequence_number enr = (1 + 1)%Z.
Proof.
  apply (proj2 (proj2 sequence_number_monotone) [("foo", "bar")]
           example_manager example_world "v4" example_scheme "P1");
    [reflexivity..|].
  intros seq kv. vm_compute. eauto.
Defined.

(** ** Merging *)

(** C4 — Merge correctness of [update]: an effective call with the single
    pair [(key, value)] returns the new current record, whose pairs are the
    previous ones with [key] set to [value].  So [key] maps to [value],
    every other key keeps its previous value, and when [key] was absent the
    key set is the previous one plus [key]. *)
Theorem update_merge_single key value self w enr σ' :
  enr_kv_pairs (_enr self) !! key ≠ Some value →
  update [(key, value)] (self, w) = (inr enr, σ') →
  _enr σ'.1 = enr ∧
  enr_kv_pairs enr = <[key := value]> (enr_kv_pairs (_enr self)) ∧
  enr_kv_pairs enr !! key = Some value ∧
  (∀ k, k ≠ key → enr_kv_pairs enr !! k = enr_kv_pairs (_enr self) !! k) ∧
  (enr_kv_pairs (_enr self) !! key = None →
   dom (enr_kv_pairs enr) = {[key]} ∪ dom (enr_kv_pairs (_enr self))).
Proof.
  intros Hdiff%any_differs_single Hupd.
  apply update_inr_effective in Hupd as (-> & _ & Hkv & _); [|done].
  rewrite merge_single in Hkv. rewrite Hkv. split_and!.
  - done.
  - done.
  - apply lookup_insert_eq.
  - intros k Hk. by apply lookup_insert_ne.
  - intros _. apply dom_insert_L.
Qed.

Lemma update_merge_single_witness :
  ∃ enr σ',
    update [("foo", "bar")] (example_manager, example_world) = (inr enr, σ') ∧
    enr_kv_pairs enr = <["foo" := "bar"]> (enr_kv_pairs example_enr) ∧
    enr_kv_pairs enr !! "id" = Some "v4".
Proof.
  eexists _, _. split; [vm_compute; reflexivity|].
  edestruct (update_merge_single "foo" "bar" example_manager example_world)
    as (_ & Hkv & _ & Hother & _);
    [by vm_compute|vm_compute; reflexivity|].
  split; [exact Hkv|].
  by rewrite Hother.
Defined.

(** ** Failure of signing *)

(** C8 — Signing-failure atomicity: when an effective [update] builds its
    unsigned record and signing it fails, the call raises that error after
    the one signing attempt, and the manager (with its current record), the
    node database and the channel are as before the call. *)
Theorem update_signing_failure kv_pairs self w unsigned err :
  any_differs (_enr self) kv_pairs = true →
  next_unsigned self kv_pairs = inr unsigned →
  sign_enr unsigned (to_bytes (_private_key self)) = inl err →
  ∃ w',
    update kv_pairs (self, w) = (inl err, (self, w')) ∧
    node_db w' = node_db w ∧
    channel w' = channel w ∧
    trace w' = trace w ++ [EvSign unsigned].
Proof.
  intros Hany Hu Hs. exists (traced w [EvSign unsigned]).
  by rewrite update_unfold, Hany, Hu, Hs.
Qed.

Lemma update_signing_failure_witness :
  ∃ unsigned w',
    update [("foo", "bar")] (broken_manager, example_world)
      = (inl SigningFailure, (broken_manager, w')) ∧
    node_db w' = node_db example_world ∧
    channel w' = channel example_world ∧
    trace w' = trace example_world ++ [EvSign unsigned].
Proof.
  eexists.
  apply (update_signing_failure [("foo", "bar")] broken_manager example_world);
    vm_compute; reflexivity.
Defined.

(** ** The outcome of [__init__], case by case *)

Lemma init_unfold private_key kv_pairs reg w :
  __init__ private_key kv_pairs reg w =
  match minimal_unsigned private_key kv_pairs reg with
  | inl e => (inl e, opened w)
  | inr unsigned =>
      match sign_enr unsigned (to_bytes private_key) with
      | inl e => (inl e, traced (opened w) [EvSign unsigned])
      | inr minimal_enr =>
          match node_db w !! node_id minimal_enr with
          | None =>
              (inr (manager_of private_key reg minimal_enr minimal_enr),
               stored (opened w) minimal_enr
                 [EvSign unsigned;
                  EvLogInfo "Local ENR created: %r" minimal_enr;
                  EvSetEnr minimal_enr])
          | Some base_enr =>
              constructing
                (manager_of private_key reg minimal_enr base_enr)
                (update (items minimal_enr))
                (traced (opened w) [EvSign unsigned])
          end
      end
  end.
Proof.
  unfold __init__, minimal_unsigned, mbind, M_bind, open_memory_channel,
    lift_result; simpl.
  destruct (UnsignedENR_new _ _ _) as [e|unsigned]; [done|].
  unfold to_signed_enr, mbind, M_bind, emit, lift_result; simpl.
  destruct (sign_enr _ _) as [e|minimal_enr]; [done|].
  unfold try_except_KeyError_else, get_enr; simpl.
  destruct (node_db w !! node_id minimal_enr) as [base_enr|]; [done|].
  unfold logger_info, emit, set_enr, mbind, M_bind, mret, M_ret, stored; simpl.
  by rewrite <-!app_assoc.
Qed.

Lemma identity_kv_pairs_named private_key (kv_pairs : gmap string string) :
  is_Some (kv_pairs !! "id") → identity_kv_pairs private_key kv_pairs = ∅.
Proof. intros Hid. unfold identity_kv_pairs. by rewrite decide_True. Qed.

Lemma identity_kv_pairs_default private_key (kv_pairs : gmap string string) :
  kv_pairs !! "id" = None →
  identity_kv_pairs private_key kv_pairs =
    {[ "id" := "v4";
       "secp256k1" := to_compressed_bytes (public_key private_key) ]}.
Proof.
  intros Hid. unfold identity_kv_pairs. rewrite decide_False; [done|].
  rewrite Hid. by intros [? ?].
Qed.

(** With no scheme named by the caller, the minimal record is built under
    the default scheme. *)
Lemma minimal_unsigned_default private_key kv_pairs reg scheme :
  default ∅ kv_pairs !! "id" = None →
  reg !! "v4" = Some scheme →
  minimal_unsigned private_key kv_pairs reg =
    inr {| unsigned_sequence_number := 1;
           unsigned_kv_pairs :=
             merge {[ "id" := "v4";
                      "secp256k1" :=
                        to_compressed_bytes (public_key private_key) ]}
               (default ∅ kv_pairs);
           unsigned_identity_scheme := scheme |}.
Proof.
  intros Hid Hreg. unfold minimal_unsigned, UnsignedENR_new.
  rewrite identity_kv_pairs_default by done.
  rewrite merge_lookup, Hid, lookup_insert_eq. by rewrite Hreg.
Qed.

Lemma update_trace kv_pairs σ :
  ∃ evs, trace (update kv_pairs σ).2.2 = trace σ.2 ++ evs.
Proof.
  destruct σ as [self w]. rewrite update_unfold.
  destruct (any_differs _ _); [|by exists []; rewrite app_nil_r].
  destruct (next_unsigned self kv_pairs) as [e|unsigned];
    [by exists []; rewrite app_nil_r|].
  destruct (sign_enr unsigned _); simpl; eauto.
Qed.

(** ** Construction: the minimal record *)

(** The first record that construction signs is the minimal one. *)
Lemma init_signs_minimal_first private_key kv_pairs reg unsigned :
  minimal_unsigned private_key kv_pairs reg = inr unsigned →
  ∀ w, ∃ rest,
    trace (__init__ private_key kv_pairs reg w).2
      = trace w ++ EvSign unsigned :: rest.
Proof.
  intros Hmin w. rewrite init_unfold, Hmin.
  destruct (sign_enr unsigned _) as [e|minimal_enr]; [by exists []|].
  destruct (node_db w !! node_id minimal_enr) as [base_enr|]; [|by eexists].
  unfold constructing.
  destruct (update_trace (items minimal_enr)
              (manager_of private_key reg minimal_enr base_enr,
               traced (opened w) [EvSign unsigned])) as [evs Hevs].
  destruct (update _ _) as [[e|enr] [self' w']]; simpl in *;
    exists evs; by rewrite Hevs, <-app_assoc.
Qed.

(** C5 — Default injection at construction.  When the caller's pairs hold
    [b"id"] nothing is injected; otherwise the scheme name [b"v4"] and the
    compressed public key are injected under [b"id"] and [b"secp256k1"].
    The record that construction signs first is the unsigned record at
    sequence number 1 whose pairs are the injected pairs merged with the
    caller's, a caller's pair winning over an injected one.  That record is
    indeed built: with no [b"id"] among the caller's pairs and a registered
    scheme [b"v4"] it holds [b"id" -> b"v4"], the compressed public key
    under [b"secp256k1"] unless the caller supplies that key, and every
    pair of the caller; with [b"id"] among the caller's pairs and the named
    scheme registered it holds exactly the caller's pairs. *)
Theorem default_injection private_key kv_pairs reg :
  (is_Some (default ∅ kv_pairs !! "id") →
   identity_kv_pairs private_key (default ∅ kv_pairs) = ∅) ∧
  (default ∅ kv_pairs !! "id" = None →
   identity_kv_pairs private_key (default ∅ kv_pairs) =
     {[ "id" := "v4";
        "secp256k1" := to_compressed_bytes (public_key private_key) ]}) ∧
  (∀ unsigned,
     minimal_unsigned private_key kv_pairs reg = inr unsigned →
     unsigned_sequence_number unsigned = 1%Z ∧
     (∀ key, unsigned_kv_pairs unsigned !! key =
             match default ∅ kv_pairs !! key with
             | Some value => Some value
             | None =>
                 identity_kv_pairs private_key (default ∅ kv_pairs) !! key
             end) ∧
     ∀ w, ∃ rest,
       trace (__init__ private_key kv_pairs reg w).2
         = trace w ++ EvSign unsigned :: rest) ∧
  (∀ scheme,
     default ∅ kv_pairs !! "id" = None →
     reg !! "v4" = Some scheme →
     ∃ unsigned,
       minimal_unsigned private_key kv_pairs reg = inr unsigned ∧
       unsigned_sequence_number unsigned = 1%Z ∧
       unsigned_kv_pairs unsigned !! "id" = Some "v4" ∧
       unsigned_kv_pairs unsigned !! "secp256k1" =
         Some (default (to_compressed_bytes (public_key private_key))
                 (default ∅ kv_pairs !! "secp256k1")) ∧
       (∀ key value,
          default ∅ kv_pairs !! key = Some value →
          unsigned_kv_pairs unsigned !! key = Some value) ∧
       (∀ key, key ≠ "id" → key ≠ "secp256k1" →
               unsigned_kv_pairs unsigned !! key
               = default ∅ kv_pairs !! key) ∧
       ∀ w, ∃ rest,
         trace (__init__ private_key kv_pairs reg w).2
           = trace w ++ EvSign unsigned :: rest) ∧
  (∀ name scheme,
     default ∅ kv_pairs !! "id" = Some name →
     reg !! name = Some scheme →
     ∃ unsigned,
       minimal_unsigned private_key kv_pairs reg = inr unsigned ∧
       unsigned_sequence_number unsigned = 1%Z ∧
       unsigned_kv_pairs unsigned = default ∅ kv_pairs ∧
       ∀ w, ∃ rest,
         trace (__init__ private_key kv_pairs reg w).2
           = trace w ++ EvSign unsigned :: rest).
Proof.
  split_and!.
  - apply identity_kv_pairs_named.
  - apply identity_kv_pairs_default.
  - intros unsigned Hu. pose proof Hu as Hmin.
    apply UnsignedENR_new_inr in Hu as (Hseq & Hkv & _).
    split_and!; [done|intros key; rewrite Hkv; apply merge_lookup|].
    by apply init_signs_minimal_first.
  - intros scheme Hid Hreg. eexists.
    split; [by apply minimal_unsigned_default|]. simpl.
    split_and!.
    + done.
    + by rewrite merge_lookup, Hid, lookup_insert_eq.
    + rewrite merge_lookup.
      destruct (default ∅ kv_pairs !! "secp256k1"); [done|].
      by rewrite lookup_insert_ne, lookup_singleton_eq.
    + intros key value Hkey. by rewrite merge_lookup, Hkey.
    + intros key Hkey Hkey'. rewrite merge_lookup.
      destruct (default ∅ kv_pairs !! key); [done|].
      by rewrite lookup_insert_ne, lookup_singleton_ne.
    + apply init_signs_minimal_first.
      by apply minimal_unsigned_default.
  - intros name scheme Hid Hreg.
    assert (minimal_unsigned private_key kv_pairs reg =
            inr {| unsigned_sequence_number := 1;
                   unsigned_kv_pairs := default ∅ kv_pairs;
                   unsigned_identity_scheme := scheme |}) as Hmin.
    { unfold minimal_unsigned, UnsignedENR_new.
      rewrite identity_kv_pairs_named by (by rewrite Hid).
      unfold merge. rewrite (right_id_L ∅ (∪)). by rewrite Hid, Hreg. }
    eexists. split; [exact Hmin|]. split_and!; [done..|].
    by apply init_signs_minimal_first.
Qed.

Lemma default_injection_witness :
  identity_kv_pairs example_key {[ "id" := "v4-compat" ]} = ∅ ∧
  identity_kv_pairs example_key {[ "foo" := "bar" ]}
    = {[ "id" := "v4"; "secp256k1" := "P1" ]} ∧
  ∃ unsigned rest,
    minimal_unsigned example_key
      (Some {[ "secp256k1" := "PX"; "foo" := "bar" ]}) example_registry
      = inr unsigned ∧
    unsigned_kv_pairs unsigned =
      {[ "id" := "v4"; "secp256k1" := "PX"; "foo" := "bar" ]} ∧
    trace (__init__ example_key
             (Some {[ "secp256k1" := "PX"; "foo" := "bar" ]})
             example_registry empty_world).2
      = EvSign unsigned :: rest.
Proof.
  destruct (default_injection example_key
              (Some {[ "id" := "v4-compat" ]}) example_registry)
    as (Hnamed & _).
  destruct (default_injection example_key
              (Some {[ "foo" := "bar" ]}) example_registry)
    as (_ & Hdefault & _).
  destruct (default_injection example_key
              (Some {[ "secp256k1" := "PX"; "foo" := "bar" ]})
              example_registry)
    as (_ & _ & _ & Hbuilt & _).
  split_and!.
  - apply Hnamed. vm_compute. eauto.
  - apply Hdefault. vm_compute. reflexivity.
  - destruct (Hbuilt example_scheme eq_refl eq_refl)
      as (unsigned & Hmin & _ & _ & _ & _ & _ & Htrace).
    destruct (Htrace empty_world) as [rest Hrest].
    exists unsigned, rest. split; [exact Hmin|]. split; [|exact Hrest].
    vm_compute in Hmin. injection Hmin as <-. vm_compute. reflexivity.
Defined.

(** ** Construction: creation *)

Lemma default_pairs_lookup (pk : string) :
  ({[ "id" := "v4"; "secp256k1" := pk ]} : gmap string string) !! "secp256k1"
  = Some pk.
Proof. by rewrite lookup_insert_ne, lookup_singleton_eq. Qed.

(** C7 — Creation scenario: with no initial pairs and a node database that
    has no record under the identity derived from the key, construction
    returns a manager whose current record has sequence number 1 and
    exactly the two pairs [b"id" -> b"v4"] and [b"secp256k1" -> compressed
    public key], and the node database afterwards is the previous one with
    that record stored under the derived identity. *)
Theorem creation_scenario private_key kv_pairs reg scheme sig w :
  default ∅ kv_pairs = ∅ →
  reg !! "v4" = Some scheme →
  create_enr_signature scheme 1
    {[ "id" := "v4";
       "secp256k1" := to_compressed_bytes (public_key private_key) ]}
    (to_bytes private_key) = Some sig →
  node_db w
    !! derive_identity scheme (to_compressed_bytes (public_key private_key))
    = None →
  ∃ m w',
    __init__ private_key kv_pairs reg w = (inr m, w') ∧
    sequence_number (_enr m) = 1%Z ∧
    enr_kv_pairs (_enr m) =
      {[ "id" := "v4";
         "secp256k1" := to_compressed_bytes (public_key private_key) ]} ∧
    size (enr_kv_pairs (_enr m)) = 2 ∧
    _node_id m =
      derive_identity scheme (to_compressed_bytes (public_key private_key)) ∧
    node_db w' = <[_node_id m := _enr m]> (node_db w) ∧
    node_db w' !! _node_id m = Some (_enr m).
Proof.
  intros Hnone Hreg Hsig Hfresh.
  rewrite init_unfold.
  rewrite (minimal_unsigned_default _ _ _ scheme) by (by rewrite ?Hnone).
  rewrite Hnone. unfold merge. rewrite (left_id_L ∅ (∪)).
  unfold sign_enr; simpl. rewrite default_pairs_lookup, Hsig; simpl.
  rewrite Hfresh. eexists _, _. split; [done|]; simpl.
  split_and!; try done. apply lookup_insert_eq.
Qed.

Lemma creation_scenario_witness :
  ∃ w',
    __init__ example_key None example_registry empty_world
      = (inr example_manager, w') ∧
    node_db w' = node_db example_world.
Proof.
  destruct (creation_scenario example_key None example_registry
              example_scheme "sig:k1" empty_world)
    as (m & w' & Hinit & _ & _ & _ & _ & Hdb & _);
    [reflexivity..|].
  exists w'. rewrite Hinit.
  vm_compute in Hinit. injection Hinit as <- <-.
  split; vm_compute; reflexivity.
Defined.

(** ** Construction: reconciliation *)

Lemma any_differs_true enr kv_pairs key value :
  (key, value) ∈ kv_pairs →
  enr_kv_pairs enr !! key ≠ Some value →
  any_differs enr kv_pairs = true.
Proof.
  intros Hin Hne. apply not_false_iff_true.
  intros Hall. pose proof (proj1 (any_differs_false _ _) Hall) as Hsame.
  eauto.
Qed.

(** C6 — Reconciliation scenario: the node database holds a record at
    sequence number 5 under the identity derived from the key, and the
    manager is constructed with the single initial pair [b"foo" -> b"bar"],
    which that record does not hold.  Construction then returns a manager
    whose current record has sequence number 6, maps [b"foo"] to [b"bar"]
    and has every key of the stored record. *)
Theorem reconciliation_scenario private_key reg scheme base_enr w :
  reg !! "v4" = Some scheme →
  (∀ seq kv,
     is_Some (create_enr_signature scheme seq kv (to_bytes private_key))) →
  node_db w
    !! derive_identity scheme (to_compressed_bytes (public_key private_key))
    = Some base_enr →
  sequence_number base_enr = 5%Z →
  enr_kv_pairs base_enr !! "foo" ≠ Some "bar" →
  ∃ m w',
    __init__ private_key (Some {[ "foo" := "bar" ]}) reg w = (inr m, w') ∧
    sequence_number (_enr m) = 6%Z ∧
    enr_kv_pairs (_enr m) !! "foo" = Some "bar" ∧
    dom (enr_kv_pairs base_enr) ⊆ dom (enr_kv_pairs (_enr m)).
Proof.
  intros Hreg Hsign Hbase Hseq Hfoo.
  set (pub := to_compressed_bytes (public_key private_key)) in *.
  set (minimal_kv :=
         merge {[ "id" := "v4"; "secp256k1" := pub ]} {[ "foo" := "bar" ]}).
  assert (minimal_kv !! "id" = Some "v4") as Hid.
  { unfold minimal_kv. by rewrite merge_lookup, lookup_singleton_ne. }
  assert (minimal_kv !! "secp256k1" = Some pub) as Hpk.
  { unfold minimal_kv. rewrite merge_lookup, lookup_singleton_ne by done.
    apply default_pairs_lookup. }
  assert (minimal_kv !! "foo" = Some "bar") as Hnew.
  { unfold minimal_kv. by rewrite merge_lookup, lookup_singleton_eq. }
  rewrite init_unfold.
  rewrite (minimal_unsigned_default _ _ _ scheme) by done; simpl.
  fold pub minimal_kv.
  unfold sign_enr at 1; simpl. rewrite Hpk.
  destruct (Hsign 1%Z minimal_kv) as [sig ->]; simpl.
  rewrite Hbase. unfold constructing. rewrite update_unfold; simpl.
  unfold items; simpl.
  rewrite (any_differs_true base_enr _ "foo" "bar");
    [|by apply elem_of_map_to_list|done].
  unfold next_unsigned, UnsignedENR_new; simpl.
  rewrite dict_map_to_list, merge_lookup, Hid, Hreg.
  unfold sign_enr; simpl. rewrite merge_lookup, Hpk.
  destruct (Hsign (sequence_number base_enr + 1)%Z
              (merge (enr_kv_pairs base_enr) minimal_kv)) as [sig' ->]; simpl.
  eexists _, _. split; [done|]; simpl. split_and!.
  - lia.
  - by rewrite merge_lookup, Hnew.
  - unfold merge. rewrite dom_union_L. set_solver.
Qed.

Lemma reconciliation_scenario_witness :
  ∃ m w',
    __init__ example_key (Some {[ "foo" := "bar" ]}) example_registry
      compat_world = (inr m, w') ∧
    sequence_number (_enr m) = 6%Z ∧
    enr_kv_pairs (_enr m) !! "foo" = Some "bar" ∧
    dom (enr_kv_pairs compat_enr) ⊆ dom (enr_kv_pairs (_enr m)).
Proof.
  apply (reconciliation_scenario example_key example_registry example_scheme
           compat_enr compat_world).
  - reflexivity.
  - intros seq kv. vm_compute. eauto.
  - reflexivity.
  - reflexivity.
  - vm_compute. discriminate.
Defined.

Lemma differs_true enr kv :
  differs enr kv = true ↔ enr_kv_pairs enr !! kv.1 ≠ Some kv.2.
Proof.
  rewrite <-not_false_iff_true, differs_false. done.
Qed.

Lemma any_differs_true_iff enr kv_pairs :
  any_differs enr kv_pairs = true ↔
  ∃ key value, (key, value) ∈ kv_pairs ∧
               enr_kv_pairs enr !! key ≠ Some value.
Proof.
  split.
  - intros ([key value] & Hin & Hd%differs_true)%existsb_exists.
    exists key, value. by rewrite list_elem_of_In.
  - intros (key & value & Hin & Hne). by eapply any_differs_true.
Qed.

(** [update] looks at its pairs only through [any] and [dict]. *)
Lemma update_congruence l1 l2 self w :
  any_differs (_enr self) l1 = any_differs (_enr self) l2 →
  merge (enr_kv_pairs (_enr self)) (dict l1)
    = merge (enr_kv_pairs (_enr self)) (dict l2) →
  update l1 (self, w) = update l2 (self, w).
Proof.
  intros Hany Hmerge. rewrite !update_unfold. unfold next_unsigned.
  by rewrite Hany, Hmerge.
Qed.

(** Replaying pairs that the current record already holds changes nothing:
    the pairs of [extra ∪ kv] act as those of [kv]. *)
Lemma update_absorbs_held_pairs (held kv : gmap string string) self w :
  held ⊆ enr_kv_pairs (_enr self) →
  update (map_to_list (merge held kv)) (self, w)
  = update (map_to_list kv) (self, w).
Proof.
  intros Hheld. apply update_congruence.
  - apply eq_iff_eq_true. rewrite !any_differs_true_iff.
    split; intros (key & value & Hin%elem_of_map_to_list & Hne);
      exists key, value; (split; [apply elem_of_map_to_list|done]).
    + rewrite merge_lookup in Hin.
      destruct (kv !! key) as [v|]; [done|].
      destruct Hne. by eapply lookup_weaken.
    + by rewrite merge_lookup, Hin.
  - rewrite !dict_map_to_list. unfold merge.
    rewrite <-(assoc_L (∪)). f_equal. by apply map_subseteq_union.
Qed.

(** C1, as the code has it — Reconciliation replays the pairs of the
    minimal record.  When the node database already holds a record for the
    derived identity, that record becomes current and [update] is called
    with the pairs of the signed minimal record, which are the injected
    defaults merged with the caller's pairs.  The call acts as a replay of
    the caller's pairs alone whenever the current record already holds the
    injected defaults with the same values, which includes every
    construction in which the caller names the scheme. *)
Theorem init_reconciles_with_minimal_pairs private_key kv_pairs reg w :
  reconciles_by_replaying minimal_pairs private_key kv_pairs reg w ∧
  (∀ unsigned minimal_enr,
     minimal_unsigned private_key kv_pairs reg = inr unsigned →
     sign_enr unsigned (to_bytes private_key) = inr minimal_enr →
     dict (minimal_pairs (default ∅ kv_pairs) minimal_enr) =
       merge (identity_kv_pairs private_key (default ∅ kv_pairs))
         (default ∅ kv_pairs) ∧
     ∀ self w',
       identity_kv_pairs private_key (default ∅ kv_pairs)
         ⊆ enr_kv_pairs (_enr self) →
       update (minimal_pairs (default ∅ kv_pairs) minimal_enr) (self, w')
       = update (callers_pairs (default ∅ kv_pairs) minimal_enr) (self, w')).
Proof.
  split.
  - intros unsigned minimal_enr base_enr Hu Hs Hbase.
    by rewrite init_unfold, Hu, Hs, Hbase.
  - intros unsigned minimal_enr Hu Hs.
    apply UnsignedENR_new_inr in Hu as (_ & Hkv & _).
    apply sign_enr_inr in Hs as (_ & Hkv' & _).
    unfold minimal_pairs, callers_pairs, items. rewrite Hkv', Hkv.
    split; [apply dict_map_to_list|].
    intros self w'. apply update_absorbs_held_pairs.
Qed.

Lemma init_reconciles_with_minimal_pairs_witness :
  __init__ example_key None example_registry compat_world =
  constructing
    (manager_of example_key example_registry example_enr compat_enr)
    (update [("secp256k1", "P1"); ("id", "v4")])
    (traced (opened compat_world)
       [EvSign {| unsigned_sequence_number := 1;
                  unsigned_kv_pairs := {[ "id" := "v4"; "secp256k1" := "P1" ]};
                  unsigned_identity_scheme := example_scheme |}]).
Proof.
  exact (proj1 (init_reconciles_with_minimal_pairs example_key None
                  example_registry compat_world)
           _ example_enr compat_enr eq_refl eq_refl eq_refl).
Defined.

(** C1, as the specification words it, fails: with no caller's pairs and a
    stored record made under the scheme name [b"v4-compat"], replaying the
    caller's pairs would leave that record current at sequence number 5,
    whereas construction re-asserts the default [b"id" -> b"v4"] and
    returns a record at sequence number 6. *)
Lemma init_replays_callers_pairs_counterexample :
  ¬ reconciles_by_replaying callers_pairs example_key None example_registry
      compat_world.
Proof.
  intros Hclaim.
  specialize (Hclaim _ example_enr compat_enr eq_refl eq_refl eq_refl).
  apply (f_equal (λ r, match r.1 with
                       | inr m => sequence_number (_enr m)
                       | inl _ => 0%Z
                       end)) in Hclaim.
  vm_compute in Hclaim. discriminate.
Qed.

Example restart_reasserts_defaults :
  ∃ m w',
    __init__ example_key None example_registry compat_world = (inr m, w') ∧
    sequence_number (_enr m) = 6%Z ∧
    enr_kv_pairs compat_enr !! "id" = Some "v4-compat" ∧
    enr_kv_pairs (_enr m) !! "id" = Some "v4".
Proof. eexists _, _. vm_compute. eauto. Qed.

(** ** Write-through coherence *)

(** The identity of a signed record is fixed by its scheme name and its
    public-key field. *)
Lemma signed_identity seq kv reg unsigned private_key enr :
  UnsignedENR_new seq kv reg = inr unsigned →
  sign_enr unsigned private_key = inr enr →
  ∃ name scheme pk,
    kv !! "id" = Some name ∧ reg !! name = Some scheme ∧
    kv !! "secp256k1" = Some pk ∧ node_id enr = derive_identity scheme pk.
Proof.
  intros (_ & Hkv & name & Hname & Hreg)%UnsignedENR_new_inr
         (_ & _ & pk & Hpk & Hid)%sign_enr_inr.
  exists name, (unsigned_identity_scheme unsigned), pk.
  rewrite Hkv in Hpk. done.
Qed.

(** Merging the pairs of a signed record into another and signing again
    keeps the identity. *)
Lemma resigned_identity seq seq' kv kv' reg unsigned unsigned' key key'
    enr enr' :
  UnsignedENR_new seq kv reg = inr unsigned →
  sign_enr unsigned key = inr enr →
  UnsignedENR_new seq' (merge kv' kv) reg = inr unsigned' →
  sign_enr unsigned' key' = inr enr' →
  node_id enr' = node_id enr.
Proof.
  intros Hu Hs Hu' Hs'.
  destruct (signed_identity _ _ _ _ _ _ Hu Hs)
    as (name & scheme & pk & Hname & Hreg & Hpk & ->).
  destruct (signed_identity _ _ _ _ _ _ Hu' Hs')
    as (name' & scheme' & pk' & Hname' & Hreg' & Hpk' & ->).
  rewrite merge_lookup, Hname in Hname'.
  rewrite merge_lookup, Hpk in Hpk'. by simplify_eq.
Qed.

Lemma init_coherent private_key kv_pairs reg w m w' :
  __init__ private_key kv_pairs reg w = (inr m, w') → coherent (m, w').
Proof.
  rewrite init_unfold. unfold coherent.
  destruct (minimal_unsigned _ _ _) as [e|unsigned] eqn:Hu; [done|].
  destruct (sign_enr unsigned _) as [e|minimal_enr] eqn:Hs; [done|].
  destruct (node_db w !! node_id minimal_enr) as [base_enr|] eqn:Hbase.
  - unfold constructing. rewrite update_unfold; simpl.
    destruct (any_differs _ _).
    + destruct (next_unsigned _ _) as [e|unsigned'] eqn:Hu'; [done|].
      destruct (sign_enr unsigned' _) as [e|enr] eqn:Hs'; [done|].
      intros [= <- <-]; simpl.
      unfold next_unsigned, items in Hu'; simpl in Hu'.
      rewrite dict_map_to_list in Hu'.
      apply UnsignedENR_new_inr in Hu as Hfields.
      destruct Hfields as (_ & Hkv & _).
      apply sign_enr_inr in Hs as Hfields.
      destruct Hfields as (_ & Hkv' & _).
      rewrite Hkv', Hkv in Hu'.
      rewrite <-(resigned_identity _ _ _ _ _ _ _ _ _ _ _ Hu Hs Hu' Hs').
      apply lookup_insert_eq.
    + by intros [= <- <-].
  - intros [= <- <-]; simpl. apply lookup_insert_eq.
Qed.

(** C10, as the code has it — Write-through coherence.  After construction
    returns, the node database holds the manager's current record under the
    manager's identity.  An [update] call keeps this whenever the record it
    returns from an effective call has the manager's identity; idempotent
    calls and raising calls always keep it. *)
Theorem write_through_coherence :
  (∀ private_key kv_pairs reg w m w',
     __init__ private_key kv_pairs reg w = (inr m, w') → coherent (m, w')) ∧
  (∀ kv_pairs σ,
     coherent σ →
     (∀ enr σ',
        any_differs (_enr σ.1) kv_pairs = true →
        update kv_pairs σ = (inr enr, σ') →
        node_id enr = _node_id σ.1) →
     coherent (after_update σ kv_pairs)).
Proof.
  split; [apply init_coherent|].
  intros kv_pairs [self w] Hco Hid. unfold after_update.
  destruct (update kv_pairs (self, w)) as [r σ'] eqn:Hupd.
  specialize (λ enr, Hid enr σ'). rewrite update_unfold in Hupd.
  destruct (any_differs _ _); [|by simplify_eq].
  destruct (next_unsigned self kv_pairs) as [e|unsigned]; [by simplify_eq|].
  destruct (sign_enr unsigned _) as [e|enr]; [by simplify_eq|].
  simplify_eq; simpl in *. unfold coherent; simpl.
  rewrite (Hid enr) by done. apply lookup_insert_eq.
Qed.

Lemma write_through_coherence_witness :
  coherent (example_manager, example_world) ∧
  coherent (after_update (example_manager, example_world) [("foo", "bar")]).
Proof.
  assert (coherent (example_manager, example_world)) as Hco by reflexivity.
  split; [exact Hco|].
  apply (proj2 write_through_coherence [("foo", "bar")]
           (example_manager, example_world) Hco).
  intros enr σ' _ Hupd. vm_compute in Hupd.
  injection Hupd as <- _. reflexivity.
Defined.

(** C10, as stated for every [update] call, fails: the manager built on an
    empty node database is coherent, but after an update that replaces the
    public-key field the new record is stored under the identity derived
    from the new field, and the entry under the manager's identity still
    holds the previous record. *)
Lemma write_through_coherence_counterexample :
  ∃ m w,
    __init__ example_key None example_registry empty_world = (inr m, w) ∧
    coherent (m, w) ∧
    ∃ enr σ',
      update [("secp256k1", "P2")] (m, w) = (inr enr, σ') ∧
      ¬ coherent σ'.
Proof.
  eexists _, _. split; [vm_compute; reflexivity|].
  split; [reflexivity|].
  eexists _, _. split; [vm_compute; reflexivity|].
  unfold coherent. vm_compute. discriminate.
Qed.

(** ** Queued updates *)

(** [update] neither reads nor writes the channel. *)
Lemma update_ignores_channel kv_pairs self w w0 :
  node_db w = node_db w0 → trace w = trace w0 →
  ∃ r self' w' w0',
    update kv_pairs (self, w) = (r, (self', w')) ∧
    update kv_pairs (self, w0) = (r, (self', w0')) ∧
    node_db w' = node_db w0' ∧ trace w' = trace w0' ∧
    channel w' = channel w ∧ channel w0' = channel w0 ∧
    receive_closed w' = receive_closed w.
Proof.
  intros Hdb Htrace. rewrite !update_unfold.
  destruct (any_differs _ _); [|by eexists _, _, _, _].
  destruct (next_unsigned self kv_pairs) as [e|unsigned];
    [by eexists _, _, _, _|].
  destruct (sign_enr unsigned _) as [e|enr]; eexists _, _, _, _;
    (split_and!; [done|done|simpl; congruence..]).
Qed.

(** One iteration of the loop of [run] on an open receive side with a pair
    pending. *)
Lemma run_loop_step n self w key value rest :
  receive_closed w = false → channel w = (key, value) :: rest →
  run_loop (S n) (self, w) =
  (update [(key, value)];; run_loop n)
    (self, {| node_db := node_db w; channel := rest; trace := trace w;
              receive_closed := receive_closed w;
              is_running := is_running w |}).
Proof.
  intros Hopen Hch.
  change (run_loop (S n) (self, w)) with
    ((received ← in_world receive;
      match received with
      | None => mret ()
      | Some (key, value) => update [(key, value)];; run_loop n
      end) (self, w)).
  unfold mbind at 1, M_bind at 1, in_world at 1, receive; simpl.
  by rewrite Hopen, Hch.
Qed.

Lemma run_loop_update_each pending : ∀ n self w w0,
  channel w = pending → length pending ≤ n → receive_closed w = false →
  node_db w = node_db w0 → trace w = trace w0 →
  ∃ r self' w' w0',
    run_loop (S n) (self, w) = (r, (self', w')) ∧
    update_each pending (self, w0) = (r, (self', w0')) ∧
    node_db w' = node_db w0' ∧ trace w' = trace w0' ∧
    (r = inr () → channel w' = []).
Proof.
  induction pending as [|[key value] rest IH];
    intros n self w w0 Hch Hlen Hopen Hdb Htrace.
  - exists (inr ()), self, w, w0. simpl.
    unfold mbind, M_bind, in_world, receive; simpl. by rewrite Hopen, Hch.
  - destruct n as [|n]; [simpl in Hlen; lia|].
    rewrite (run_loop_step _ _ _ key value rest) by done.
    set (w1 := {| node_db := node_db w; channel := rest; trace := trace w;
                  receive_closed := receive_closed w;
                  is_running := is_running w |}).
    destruct (update_ignores_channel [(key, value)] self w1 w0 Hdb Htrace)
      as (r & self' & w' & w0' & Hupd & Hupd0 & Hdb' & Htrace' & Hch' & _
          & Hopen').
    change (update_each ((key, value) :: rest) (self, w0)) with
      ((update [(key, value)];; update_each rest) (self, w0)).
    unfold mbind, M_bind. rewrite Hupd, Hupd0.
    destruct r as [e|enr].
    + exists (inl e), self', w', w0'. by split_and!.
    + apply IH; [done|simpl in Hlen; lia|by rewrite Hopen'|done..].
Qed.

Lemma run_loop_closed n self w :
  receive_closed w = true →
  run_loop (S n) (self, w) = (inl ClosedResourceError, (self, w)).
Proof.
  intros Hclosed. simpl. unfold mbind, M_bind, in_world, receive; simpl.
  by rewrite Hclosed.
Qed.

Lemma run_unfold σ :
  run σ =
  match run_loop (S (length (channel σ.2))) σ with
  | (r, σ') => (r, (σ'.1, closed σ'.2))
  end.
Proof.
  unfold run, async_with_receive_channel.
  by destruct (run_loop _ σ) as [r [self' w']].
Qed.










(** * Further properties of the manager *)

(** ** Errors of [update] *)

Lemma UnsignedENR_new_inl seq kv reg err :
  UnsignedENR_new seq kv reg = inl err → err = UnknownScheme.
Proof.
  unfold UnsignedENR_new. destruct (kv !! "id") as [name|]; [|congruence].
  destruct (reg !! name); congruence.
Qed.

Lemma sign_enr_inl unsigned private_key err :
  sign_enr unsigned private_key = inl err → err = SigningFailure.
Proof.
  unfold sign_enr.
  destruct (unsigned_kv_pairs unsigned !! "secp256k1");
    [destruct (create_enr_signature _ _ _ _)|]; congruence.
Qed.

(** X1 — Whenever [update] raises, the manager with its current record,
    the node database and the channel are as before the call.  The error is
    never [KeyError]: it is [UnknownScheme], raised before any signing
    attempt, or [SigningFailure], raised after exactly one attempt. *)
Theorem update_raise_unchanged kv_pairs self w err σ' :
  update kv_pairs (self, w) = (inl err, σ') →
  σ'.1 = self ∧ node_db σ'.2 = node_db w ∧ channel σ'.2 = channel w ∧
  ((err = UnknownScheme ∧ trace σ'.2 = trace w) ∨
   (err = SigningFailure ∧
    ∃ unsigned, trace σ'.2 = trace w ++ [EvSign unsigned])).
Proof.
  rewrite update_unfold.
  destruct (any_differs _ _); [|done].
  destruct (next_unsigned self kv_pairs) as [e|unsigned] eqn:Hu.
  - intros [= -> <-]. apply UnsignedENR_new_inl in Hu. by split_and!; [..|left].
  - destruct (sign_enr unsigned _) as [e|enr] eqn:Hs; [|done].
    intros [= -> <-]. apply sign_enr_inl in Hs.
    split_and!; [done..|right]. split; [done|by exists unsigned].
Qed.

Lemma update_raise_unchanged_witness :
  ∃ σ',
    update [("id", "v5")] (example_manager, example_world)
      = (inl UnknownScheme, σ') ∧
    σ'.1 = example_manager ∧ node_db σ'.2 = node_db example_world ∧
    trace σ'.2 = trace example_world.
Proof.
  eexists. split; [vm_compute; reflexivity|].
  destruct (update_raise_unchanged [("id", "v5")] example_manager
              example_world UnknownScheme
              (update [("id", "v5")] (example_manager, example_world)).2)
    as (Hself & Hdb & _ & [[_ Htrace]|[Herr _]]);
    [vm_compute; reflexivity|by split_and!|discriminate].
Defined.

(** ** Several pairs in one call *)

Lemma dict_lookup_snoc l kv key :
  dict (l ++ [kv]) !! key =
  if decide (kv.1 = key) then Some kv.2 else dict l !! key.
Proof. rewrite dict_snoc. apply lookup_insert. Qed.

Lemma dict_lookup_None l key : key ∉ l.*1 → dict l !! key = None.
Proof.
  induction l as [|kv l IH] using rev_ind; [done|].
  rewrite fmap_app, not_elem_of_app; simpl. intros [Hl Hkv].
  rewrite dict_lookup_snoc, decide_False; [by apply IH|].
  intros <-. apply Hkv. by left.
Qed.

Lemma dict_lookup_last before key value later :
  key ∉ later.*1 →
  dict (before ++ (key, value) :: later) !! key = Some value.
Proof.
  induction later as [|kv later IH] using rev_ind; intros Hlater.
  - by rewrite dict_lookup_snoc, decide_True.
  - rewrite fmap_app, not_elem_of_app in Hlater; simpl in Hlater.
    destruct Hlater as [Hl Hkv].
    rewrite app_comm_cons, app_assoc, dict_lookup_snoc, decide_False;
      [by apply IH|].
    intros <-. apply Hkv. by left.
Qed.

(** X2 — An effective [update] with any number of pairs returns a record in
    which a key that no pair supplies keeps its previous value, and a key
    that several pairs supply has the value of the last of them. *)
Theorem update_merge_last_wins kv_pairs self w enr σ' :
  any_differs (_enr self) kv_pairs = true →
  update kv_pairs (self, w) = (inr enr, σ') →
  (∀ key, key ∉ kv_pairs.*1 →
          enr_kv_pairs enr !! key = enr_kv_pairs (_enr self) !! key) ∧
  (∀ before key value later,
     kv_pairs = before ++ (key, value) :: later → key ∉ later.*1 →
     enr_kv_pairs enr !! key = Some value).
Proof.
  intros Hany Hupd.
  apply update_inr_effective in Hupd as (_ & _ & -> & _); [|done].
  split.
  - intros key Hkey. by rewrite merge_lookup, dict_lookup_None.
  - intros before key value later -> Hlater.
    by rewrite merge_lookup, dict_lookup_last.
Qed.

Lemma update_merge_last_wins_witness :
  ∃ enr σ',
    update [("foo", "a"); ("udp", "30303"); ("foo", "b")]
      (example_manager, example_world) = (inr enr, σ') ∧
    enr_kv_pairs enr !! "foo" = Some "b" ∧
    enr_kv_pairs enr !! "id" = Some "v4".
Proof.
  eexists _, _. split; [vm_compute; reflexivity|].
  edestruct (update_merge_last_wins
               [("foo", "a"); ("udp", "30303"); ("foo", "b")]
               example_manager example_world) as [Hkept Hlast];
    [vm_compute; reflexivity..|].
  split.
  - apply (Hlast [("foo", "a"); ("udp", "30303")] "foo" "b" []);
      [reflexivity|apply not_elem_of_nil].
  - rewrite Hkept; [reflexivity|]. vm_compute.
    intros Hin. repeat (apply elem_of_cons in Hin as [Hin|Hin]; [done|]).
    by apply elem_of_nil in Hin.
Defined.

(** ** The cumulative effect of queued updates *)

Lemma foldl_insert_union (l : list (string * string)) : ∀ m : gmap string string,
  foldl (λ d kv, <[kv.1 := kv.2]> d) m l = dict l ∪ m.
Proof.
  induction l as [|kv l IH] using rev_ind; intros m.
  - change (dict []) with (∅ : gmap string string).
    by rewrite (left_id_L ∅ (∪)).
  - rewrite foldl_app; simpl. by rewrite IH, dict_snoc, insert_union_l.
Qed.

Lemma merge_cons (a : gmap string string) key value rest :
  merge a (dict ((key, value) :: rest)) = merge (<[key := value]> a) (dict rest).
Proof.
  unfold merge, dict at 1; simpl. rewrite foldl_insert_union.
  by rewrite <-(assoc_L (∪)), <-insert_union_l, (left_id_L ∅ (∪)).
Qed.

(** A returning single-pair [update] sets the key, whether or not it was
    effective. *)
Lemma update_single_inr key value self w enr σ' :
  update [(key, value)] (self, w) = (inr enr, σ') →
  enr_kv_pairs (_enr σ'.1) = <[key := value]> (enr_kv_pairs (_enr self)).
Proof.
  intros Hupd.
  destruct (any_differs (_enr self) [(key, value)]) eqn:Hany.
  - apply update_inr_effective in Hupd as (-> & _ & Hkv & _); [|done].
    simpl. by rewrite Hkv, merge_single.
  - rewrite update_unfold, Hany in Hupd. simplify_eq; simpl.
    symmetry. apply insert_id.
    apply (proj1 (any_differs_false _ _) Hany). by left.
Qed.

Lemma update_each_merges kv_pairs : ∀ σ σ',
  update_each kv_pairs σ = (inr (), σ') →
  enr_kv_pairs (_enr σ'.1) = merge (enr_kv_pairs (_enr σ.1)) (dict kv_pairs).
Proof.
  induction kv_pairs as [|[key value] rest IH]; intros [self w] σ'; simpl.
  - intros [= <-]; simpl. unfold merge, dict; simpl.
    by rewrite (left_id_L ∅ (∪)).
  - unfold mbind, M_bind.
    destruct (update [(key, value)] (self, w)) as [[e|enr] σ1] eqn:Hupd;
      [done|].
    intros Hrest%IH. rewrite Hrest, merge_cons.
    by rewrite (update_single_inr _ _ _ _ _ _ Hupd).
Qed.

(** X3 — When the consumer loop [run] returns, the current record holds
    the previous pairs merged with the pending pairs, a later pending pair
    winning over an earlier one with the same key.  These are the pairs
    that a single effective [update] with all the pending pairs returns;
    the queued path differs only in the sequence numbers it goes through. *)
Theorem run_merges_pending self w self' w' :
  run (self, w) = (inr (), (self', w')) →
  enr_kv_pairs (_enr self') =
    merge (enr_kv_pairs (_enr self)) (dict (channel w)) ∧
  (∀ enr σ'',
     any_differs (_enr self) (channel w) = true →
     update (channel w) (self, w) = (inr enr, σ'') →
     enr_kv_pairs enr = enr_kv_pairs (_enr self')).
Proof.
  intros Hrun. rewrite run_unfold in Hrun.
  change ((self, w).2) with w in Hrun.
  destruct (receive_closed w) eqn:Hopen;
    [by rewrite run_loop_closed in Hrun|].
  destruct (run_loop_update_each (channel w) (length (channel w)) self w w)
    as (r & self1 & w1 & w0' & Hloop & Heach & _); [done..|].
  rewrite Hloop in Hrun. injection Hrun as -> <- _.
  apply update_each_merges in Heach; simpl in Heach.
  split; [done|].
  intros enr σ'' Hany Hupd.
  apply update_inr_effective in Hupd as (_ & _ & -> & _); done.
Qed.

Lemma run_merges_pending_witness :
  ∃ self' w',
    run (example_manager,
         enqueued example_world [("foo", "a"); ("foo", "b")])
      = (inr (), (self', w')) ∧
    enr_kv_pairs (_enr self') =
      merge (enr_kv_pairs example_enr) (dict [("foo", "a"); ("foo", "b")]) ∧
    sequence_number (_enr self') = 3%Z.
Proof.
  eexists _, _. split; [vm_compute; reflexivity|].
  split; [|reflexivity].
  refine (proj1 (run_merges_pending example_manager
                   (enqueued example_world [("foo", "a"); ("foo", "b")])
                   _ _ _)).
  vm_compute. reflexivity.
Defined.

(** ** Construction: failure, frame and restart *)

(** The three ways in which construction returns: creation, reconciliation
    that finds nothing to change, reconciliation that signs a new version. *)
Lemma init_inr_cases private_key kv_pairs reg w m w' :
  __init__ private_key kv_pairs reg w = (inr m, w') →
  ∃ unsigned minimal_enr,
    minimal_unsigned private_key kv_pairs reg = inr unsigned ∧
    sign_enr unsigned (to_bytes private_key) = inr minimal_enr ∧
    m = manager_of private_key reg minimal_enr (_enr m) ∧
    channel w' = [] ∧
    (∀ key value, enr_kv_pairs minimal_enr !! key = Some value →
                  enr_kv_pairs (_enr m) !! key = Some value) ∧
    ((node_db w !! node_id minimal_enr = None ∧
      _enr m = minimal_enr ∧
      node_db w' = <[node_id minimal_enr := minimal_enr]> (node_db w)) ∨
     (node_db w !! node_id minimal_enr = Some (_enr m) ∧
      node_db w' = node_db w) ∨
     (is_Some (node_db w !! node_id minimal_enr) ∧
      node_db w' = <[node_id minimal_enr := _enr m]> (node_db w))).
Proof.
  rewrite init_unfold.
  destruct (minimal_unsigned _ _ _) as [e|unsigned] eqn:Hu; [done|].
  destruct (sign_enr unsigned _) as [e|minimal_enr] eqn:Hs; [done|].
  intros Hinit. exists unsigned, minimal_enr. split; [done|]. split; [done|].
  destruct (node_db w !! node_id minimal_enr) as [base_enr|] eqn:Hbase.
  - unfold constructing in Hinit. rewrite update_unfold in Hinit.
    simpl in Hinit.
    destruct (any_differs base_enr (items minimal_enr)) eqn:Hany.
    + destruct (next_unsigned _ _) as [e|unsigned'] eqn:Hu'; [done|].
      destruct (sign_enr unsigned' _) as [e|enr] eqn:Hs'; [done|].
      injection Hinit as <- <-; simpl.
      unfold next_unsigned, items in Hu'; simpl in Hu'.
      rewrite dict_map_to_list in Hu'.
      apply UnsignedENR_new_inr in Hu as Hfields.
      destruct Hfields as (_ & Hkv & _).
      apply sign_enr_inr in Hs as Hfields.
      destruct Hfields as (_ & Hkv' & _).
      rewrite Hkv', Hkv in Hu'.
      pose proof (resigned_identity _ _ _ _ _ _ _ _ _ _ _ Hu Hs Hu' Hs')
        as Hid.
      apply UnsignedENR_new_inr in Hu' as (_ & Hkv1 & _).
      apply sign_enr_inr in Hs' as (_ & Hkv1' & _).
      split_and!; [done..| |].
      * intros key value Hkey.
        by rewrite Hkv1', Hkv1, merge_lookup, <-Hkv, <-Hkv', Hkey.
      * right; right. split; [by eexists|]. by rewrite Hid.
    + injection Hinit as <- <-; simpl. split_and!; [done..| |].
      * intros key value Hkey.
        apply (proj1 (any_differs_false _ _) Hany).
        by apply elem_of_map_to_list.
      * right; left. done.
  - injection Hinit as <- <-; simpl. split_and!; [done..|]. by left.
Qed.

(** X4 — When construction raises, the error is [UnknownScheme] or
    [SigningFailure], never the [KeyError] of the node database lookup, and
    the node database is as before: no record has been persisted. *)
Theorem init_raise_unchanged private_key kv_pairs reg w err w' :
  __init__ private_key kv_pairs reg w = (inl err, w') →
  (err = UnknownScheme ∨ err = SigningFailure) ∧ node_db w' = node_db w.
Proof.
  rewrite init_unfold. unfold minimal_unsigned.
  destruct (UnsignedENR_new _ _ _) as [e|unsigned] eqn:Hu.
  { intros [= -> <-]. apply UnsignedENR_new_inl in Hu. by split; [left|]. }
  destruct (sign_enr unsigned _) as [e|minimal_enr] eqn:Hs.
  { intros [= -> <-]. apply sign_enr_inl in Hs. by split; [right|]. }
  destruct (node_db w !! node_id minimal_enr) as [base_enr|]; [|done].
  unfold constructing. rewrite update_unfold; simpl.
  destruct (any_differs _ _); [|done].
  destruct (next_unsigned _ _) as [e|unsigned'] eqn:Hu'.
  { intros [= -> <-]. apply UnsignedENR_new_inl in Hu'. by split; [left|]. }
  destruct (sign_enr unsigned' _) as [e|enr] eqn:Hs'; [|done].
  intros [= -> <-]. apply sign_enr_inl in Hs'. by split; [right|].
Qed.

Lemma init_raise_unchanged_witness :
  ∃ w',
    __init__ broken_key None example_registry compat_world
      = (inl SigningFailure, w') ∧
    node_db w' = node_db compat_world.
Proof.
  eexists. split; [vm_compute; reflexivity|].
  eapply (init_raise_unchanged broken_key None example_registry compat_world
            SigningFailure).
  vm_compute. reflexivity.
Defined.

(** X5 — When construction returns, the manager holds the private key and
    the registry it was given, its channel is empty, and every entry of the
    node database other than the one of the manager's identity is as it
    was: construction writes no other node's record. *)
Theorem init_frame private_key kv_pairs reg w m w' :
  __init__ private_key kv_pairs reg w = (inr m, w') →
  _private_key m = private_key ∧
  _identity_scheme_registry m = reg ∧
  channel w' = [] ∧
  ∀ n, n ≠ _node_id m → node_db w' !! n = node_db w !! n.
Proof.
  intros (unsigned & minimal_enr & _ & _ & Hm & Hch & _ & Hdb)%init_inr_cases.
  rewrite Hm; simpl. split_and!; [done..|].
  intros n Hn.
  destruct Hdb as [(_ & _ & ->)|[(_ & ->)|(_ & ->)]];
    [by rewrite lookup_insert_ne|done|by rewrite lookup_insert_ne].
Qed.

Lemma init_frame_witness :
  ∃ m w',
    __init__ example_key (Some {[ "foo" := "bar" ]}) example_registry
      {| node_db := {[ "node:P1" := compat_enr; "node:P2" := example_enr ]};
         channel := [("udp", "1")]; trace := [];
         receive_closed := false; is_running := false |} = (inr m, w') ∧
    channel w' = [] ∧
    node_db w' !! "node:P2" = Some example_enr.
Proof.
  eexists _, _. split; [vm_compute; reflexivity|].
  edestruct (init_frame example_key (Some {[ "foo" := "bar" ]})
               example_registry
               {| node_db :=
                    {[ "node:P1" := compat_enr; "node:P2" := example_enr ]};
                  channel := [("udp", "1")]; trace := [];
                  receive_closed := false; is_running := false |})
    as (_ & _ & Hch & Hother); [vm_compute; reflexivity|].
  split; [exact Hch|].
  rewrite Hother; [reflexivity|]. vm_compute. discriminate.
Defined.

(** X6 — Restart stability: constructing a manager again with the same
    key, pairs and registry on the world that a construction left behind
    returns the same manager with the same current record.  The second
    construction signs the minimal record once to derive the identity and
    writes nothing to the node database, so a restart alone never advances
    the sequence number. *)
Theorem restart_keeps_record private_key kv_pairs reg w m w' :
  __init__ private_key kv_pairs reg w = (inr m, w') →
  ∃ unsigned w'',
    __init__ private_key kv_pairs reg w' = (inr m, w'') ∧
    node_db w'' = node_db w' ∧
    trace w'' = trace w' ++ [EvSign unsigned].
Proof.
  intros Hinit. pose proof (init_coherent _ _ _ _ _ _ Hinit) as Hco.
  apply init_inr_cases in Hinit
    as (unsigned & minimal_enr & Hu & Hs & Hm & _ & Hheld & _).
  exists unsigned, (traced (opened w') [EvSign unsigned]).
  split; [|done].
  unfold coherent in Hco; simpl in Hco. rewrite Hm in Hco; simpl in Hco.
  rewrite init_unfold, Hu, Hs, Hco.
  unfold constructing. rewrite update_unfold; simpl.
  assert (any_differs (_enr m) (items minimal_enr) = false) as ->.
  { apply any_differs_false. intros key value Hin%elem_of_map_to_list. eauto. }
  by rewrite <-Hm.
Qed.

Lemma restart_keeps_record_witness :
  ∃ m w' w'',
    __init__ example_key (Some {[ "foo" := "bar" ]}) example_registry
      compat_world = (inr m, w') ∧
    __init__ example_key (Some {[ "foo" := "bar" ]}) example_registry
      w' = (inr m, w'') ∧
    sequence_number (_enr m) = 6%Z ∧
    node_db w'' = node_db w'.
Proof.
  destruct (__init__ example_key (Some {[ "foo" := "bar" ]}) example_registry
              compat_world) as [[e|m] w'] eqn:Hinit;
    [vm_compute in Hinit; discriminate|].
  destruct (restart_keeps_record _ _ _ _ _ _ Hinit)
    as (unsigned & w'' & Hagain & Hdb & _).
  exists m, w', w''. split; [reflexivity|]. split; [exact Hagain|].
  split; [|exact Hdb].
  vm_compute in Hinit. injection Hinit as <- _. reflexivity.
Defined.

(** ** Failure inside the consumer loop *)





(** * Properties of the client glue *)

(** ** Prefixes *)

Lemma is_0x_prefixed_inv value :
  is_0x_prefixed value = true →
  ∃ x rest, value = String "0" (String x rest) ∧ (x = "x" ∨ x = "X")%char.
Proof.
  unfold is_0x_prefixed.
  destruct value as [|a [|b rest]]; cbn [String.prefix].
  - done.
  - by destruct (ascii_dec "0" a).
  - destruct (ascii_dec "0" a) as [<-|]; [|done].
    destruct (ascii_dec "x" b) as [<-|]; [by eauto|].
    destruct (ascii_dec "X" b) as [<-|]; [by eauto|done].
Qed.

Lemma is_0x_prefixed_0x rest : is_0x_prefixed ("0x" +:+ rest) = true.
Proof. by destruct rest. Qed.

Lemma is_uri_0 x rest : is_uri (String "0" (String x rest)) = false.
Proof. reflexivity. Qed.

Lemma remove_0x_prefix_length value :
  is_0x_prefixed value = true →
  String.length value = S (S (String.length (remove_0x_prefix value))).
Proof.
  intros Hpre. unfold remove_0x_prefix. rewrite Hpre.
  apply is_0x_prefixed_inv in Hpre as (x & rest & -> & _). reflexivity.
Qed.

(** X8 — Which text identifiers [ping_munger] accepts, and what it makes
    of them.  A string that starts with [enode://] or [enr:] is passed on
    as it is.  Any other string is accepted exactly when it has 64
    characters after an optional [0x] or [0X] prefix, whatever those
    characters are, and is passed on with its prefix or, lacking one, with
    [0x] added.  The payload always has exactly one element. *)
Theorem ping_munger_str identifier payload :
  ping_munger (IdStr identifier) = inr payload ↔
  (is_uri identifier = true ∧ payload = [identifier]) ∨
  (is_uri identifier = false ∧ is_0x_prefixed identifier = true ∧
   String.length identifier = 66 ∧ payload = [identifier]) ∨
  (is_uri identifier = false ∧ is_0x_prefixed identifier = false ∧
   String.length identifier = 64 ∧ payload = ["0x" +:+ identifier]).
Proof.
  unfold ping_munger. fold (is_uri identifier).
  destruct (is_uri identifier) eqn:Huri.
  { split; [intros [= <-]; by left|]. intros [[_ ->]|[(?&_)|(?&_)]]; done. }
  destruct (is_0x_prefixed identifier) eqn:Hpre.
  - pose proof (remove_0x_prefix_length _ Hpre) as Hlen.
    unfold add_0x_prefix. rewrite Hpre.
    destruct (decide (String.length (remove_0x_prefix identifier) = 64))
      as [H64|H64].
    + split; [intros [= <-]; right; left; split_and!; [done..|lia|done]|].
      intros [[? _]|[(_&_&_&->)|(_&?&_)]]; done.
    + split; [done|].
      intros [[? _]|[(_&_&Hl&_)|(_&?&_)]]; [done|lia|done].
  - unfold remove_0x_prefix, add_0x_prefix. rewrite Hpre.
    destruct (decide (String.length identifier = 64)) as [H64|H64].
    + split; [intros [= <-]; right; right; by split_and!|].
      intros [[? _]|[(_&?&_)|(_&_&_&->)]]; done.
    + split; [done|].
      intros [[? _]|[(_&?&_)|(_&_&Hl&_)]]; done.
Qed.

Lemma ping_munger_str_witness :
  ping_munger (IdStr "enr:-IS4QHCYrYZbAKW") = inr ["enr:-IS4QHCYrYZbAKW"] ∧
  ping_munger
    (IdStr "zz00000000000000000000000000000000000000000000000000000000000000")
  = inr ["0xzz00000000000000000000000000000000000000000000000000000000000000"].
Proof.
  split.
  - apply ping_munger_str. left. split; reflexivity.
  - apply ping_munger_str. right; right. split_and!; reflexivity.
Defined.

(** X9 — Normalisation by [ping_munger] is idempotent on text: the payload
    it builds for a string is accepted again as a string and is passed on
    unchanged. *)
Theorem ping_munger_idempotent identifier normalised :
  ping_munger (IdStr identifier) = inr [normalised] →
  ping_munger (IdStr normalised) = inr [normalised].
Proof.
  unfold ping_munger at 1. fold (is_uri identifier).
  destruct (is_uri identifier) eqn:Huri.
  { intros [= <-]. unfold ping_munger. fold (is_uri identifier).
    by rewrite Huri. }
  destruct (decide (String.length (remove_0x_prefix identifier) = 64))
    as [H64|]; [|done].
  intros [= <-]. unfold add_0x_prefix, remove_0x_prefix in *.
  destruct (is_0x_prefixed identifier) eqn:Hpre.
  - unfold ping_munger. fold (is_uri identifier).
    rewrite Huri. unfold remove_0x_prefix, add_0x_prefix. rewrite Hpre.
    by rewrite decide_True.
  - unfold ping_munger. fold (is_uri ("0x" +:+ identifier)).
    change (is_uri ("0x" +:+ identifier)) with false; simpl.
    unfold remove_0x_prefix, add_0x_prefix.
    rewrite is_0x_prefixed_0x; simpl.
    by rewrite decide_True.
Qed.

Lemma ping_munger_idempotent_witness :
  ping_munger
    (IdStr "0xab00000000000000000000000000000000000000000000000000000000000000")
  = inr ["0xab00000000000000000000000000000000000000000000000000000000000000"].
Proof.
  apply (ping_munger_idempotent
           "ab00000000000000000000000000000000000000000000000000000000000000").
  reflexivity.
Defined.

(** ** Hexadecimal round trips *)

Lemma hex_byte_round_trip byte :
  hex_value (hex_digit (N_of_ascii byte / 16)) = Some (N_of_ascii byte / 16)%N ∧
  hex_value (hex_digit (N_of_ascii byte mod 16))
    = Some (N_of_ascii byte mod 16)%N ∧
  ascii_of_N (16 * (N_of_ascii byte / 16) + N_of_ascii byte mod 16) = byte.
Proof.
  destruct byte as [[] [] [] [] [] [] [] []]; vm_compute; done.
Qed.

Lemma unhexlify_hexlify value : unhexlify (hexlify value) = Some value.
Proof.
  induction value as [|byte rest IH]; [done|].
  destruct (hex_byte_round_trip byte) as (Hhigh & Hlow & Hbyte).
  cbn [hexlify unhexlify]. by rewrite Hhigh, Hlow, IH, Hbyte.
Qed.

Lemma hexlify_not_prefixed value : is_0x_prefixed (hexlify value) = false.
Proof.
  destruct value as [|byte rest]; [done|].
  destruct byte as [[] [] [] [] [] [] [] []]; reflexivity.
Qed.

Lemma encode_hex_unfold value : encode_hex value = "0x" +:+ hexlify value.
Proof. unfold encode_hex, add_0x_prefix. by rewrite hexlify_not_prefixed. Qed.

Lemma hexlify_length value :
  String.length (hexlify value) = 2 * String.length value.
Proof. induction value as [|byte rest IH]; simpl; lia. Qed.

Lemma decode_encode_hex value : decode_hex (encode_hex value) = Some value.
Proof.
  rewrite encode_hex_unfold. unfold decode_hex, remove_0x_prefix.
  rewrite is_0x_prefixed_0x. apply unhexlify_hexlify.
Qed.

Lemma ping_munger_prefixed identifier :
  is_0x_prefixed identifier = true → String.length identifier = 66 →
  ping_munger (IdStr identifier) = inr [identifier].
Proof.
  intros Hpre Hlen. pose proof (remove_0x_prefix_length _ Hpre) as Hrem.
  assert (is_uri identifier = false) as Huri.
  { apply is_0x_prefixed_inv in Hpre as (x & rest & -> & _). apply is_uri_0. }
  unfold ping_munger. fold (is_uri identifier). rewrite Huri.
  rewrite decide_True by lia. unfold add_0x_prefix. by rewrite Hpre.
Qed.

(** X10 — [ping_munger] accepts a byte string exactly when it has 32
    bytes, and its payload is then the single string [encode_hex] of it: 66
    characters that the munger accepts unchanged as a text identifier, and
    that [decode_hex] turns back into the 32 bytes. *)
Theorem ping_munger_bytes value :
  (∀ payload,
     ping_munger (IdBytes value) = inr payload ↔
     String.length value = 32 ∧ payload = [encode_hex value]) ∧
  (String.length value = 32 →
   String.length (encode_hex value) = 66 ∧
   ping_munger (IdStr (encode_hex value)) = inr [encode_hex value] ∧
   decode_hex (encode_hex value) = Some value).
Proof.
  split.
  - intros payload. unfold ping_munger.
    destruct (decide (String.length value = 32)) as [H32|H32].
    + split; [by intros [= <-]|by intros [_ ->]].
    + split; [done|by intros [? _]].
  - intros H32.
    assert (String.length (encode_hex value) = 66) as H66.
    { rewrite encode_hex_unfold.
      change (String.length ("0x" +:+ hexlify value))
        with (S (S (String.length (hexlify value)))).
      rewrite hexlify_length. lia. }
    split_and!; [done| |apply decode_encode_hex].
    apply ping_munger_prefixed; [|done].
    rewrite encode_hex_unfold. apply is_0x_prefixed_0x.
Qed.

Lemma ping_munger_bytes_witness :
  ping_munger (IdBytes "0123456789abcdef0123456789abcdef") =
    inr ["0x3031323334353637383961626364656630313233343536373839616263646566"]
  ∧ decode_hex
      "0x3031323334353637383961626364656630313233343536373839616263646566"
    = Some "0123456789abcdef0123456789abcdef".
Proof.
  destruct (ping_munger_bytes "0123456789abcdef0123456789abcdef")
    as [Haccept Hshape].
  split.
  - apply Haccept. split; reflexivity.
  - destruct (Hshape eq_refl) as (_ & _ & Hdecode). exact Hdecode.
Defined.

(** ** Bucket information *)

Lemma decode_node_ids_encoded node_ids :
  decode_node_ids (encode_hex <$> node_ids) = Some node_ids.
Proof.
  induction node_ids as [|node_id rest IH]; [done|].
  cbn [fmap list_fmap decode_node_ids].
  rewrite decode_encode_hex. fold (encode_hex <$> rest). by rewrite IH.
Qed.

Lemma decode_node_ids_Some hexes decoded :
  decode_node_ids hexes = Some decoded →
  Forall2 (λ node_id_hex node_id, decode_hex node_id_hex = Some node_id)
    hexes decoded.
Proof.
  revert decoded. induction hexes as [|node_id_hex rest IH]; intros decoded.
  - intros [= <-]. constructor.
  - cbn [decode_node_ids].
    destruct (decode_hex node_id_hex) as [node_id|] eqn:Hhex; [|done].
    destruct (decode_node_ids rest) as [decoded'|]; [|done].
    intros [= <-]. constructor; [done|by apply IH].
Qed.

(** X11 — [BucketInfo.from_rpc_response] decodes a response whose node
    lists hold [encode_hex] of node identifiers back into those
    identifiers, in the same order, with the index and the fullness flag
    copied.  Whenever it returns, each list of the result has one
    identifier per string of the response, which is the [decode_hex] of
    that string. *)
Theorem bucket_info_round_trip :
  (∀ index node_ids cached full,
     BucketInfo_from_rpc_response
       {| response_idx := index;
          response_nodes := encode_hex <$> node_ids;
          response_replacement_cache := encode_hex <$> cached;
          response_is_full := full |}
     = Some {| idx := index; nodes := node_ids;
               replacement_cache := cached; is_full := full |}) ∧
  (∀ response info,
     BucketInfo_from_rpc_response response = Some info →
     idx info = response_idx response ∧
     is_full info = response_is_full response ∧
     Forall2 (λ node_id_hex node_id, decode_hex node_id_hex = Some node_id)
       (response_nodes response) (nodes info) ∧
     Forall2 (λ node_id_hex node_id, decode_hex node_id_hex = Some node_id)
       (response_replacement_cache response) (replacement_cache info)).
Proof.
  split.
  - intros index node_ids cached full. unfold BucketInfo_from_rpc_response.
    cbn [response_idx response_nodes response_replacement_cache
         response_is_full].
    by rewrite !decode_node_ids_encoded.
  - intros response info. unfold BucketInfo_from_rpc_response.
    destruct (decode_node_ids (response_nodes response))
      as [decoded_nodes|] eqn:Hnodes; [|done].
    destruct (decode_node_ids (response_replacement_cache response))
      as [decoded_cache|] eqn:Hcache; [|done].
    intros [= <-]; simpl.
    split_and!; [done..| |]; by apply decode_node_ids_Some.
Qed.

Lemma bucket_info_round_trip_witness :
  BucketInfo_from_rpc_response
    {| response_idx := 255;
       response_nodes := ["0x6e31"; "0x6e32"];
       response_replacement_cache := [];
       response_is_full := false |}
  = Some {| idx := 255; nodes := ["n1"; "n2"];
            replacement_cache := []; is_full := false |}.
Proof.
  exact (proj1 bucket_info_round_trip 255%Z ["n1"; "n2"] [] false).
Defined.
